(** * A shallow embedding of the dictionary renderer and the favorites store

    The development follows the TypeScript sources:
    - [Dictionary] (renderMarkdown, renderPronunciations, renderForms,
      renderSenses), the markdown rendering engine;
    - [Favorite] (formatText, addEntry, removeEntry, exist), the favorites
      store kept in LocalStorage.

    JavaScript strings are modelled by [string]; a character stands for one
    code unit.  Case mapping and trimming are modelled on the ASCII range,
    where they agree with JavaScript; other code units are left alone.
    Plain objects used as dictionaries are modelled by [JSObject.t]: the own
    properties in creation order, the properties inherited from
    [Object.prototype], and the enumeration order of the language (array
    indices first, in ascending order, then the other keys in creation
    order). *)

From Stdlib Require Import String Ascii List Bool Arith NArith ZArith Lia.
From Stdlib Require Import Permutation Sorted DecimalString.
Import ListNotations.
Open Scope list_scope.
Open Scope string_scope.

(** ** Exceptions *)

(** The only exception the modelled code can raise is a [TypeError], when a
    property of [undefined] is read. *)
Inductive Result (A : Type) : Type :=
| Ok (a : A)
| TypeError.
Arguments Ok {A} a.
Arguments TypeError {A}.

Definition bind {A B : Type} (r : Result A) (k : A -> Result B) : Result B :=
  match r with
  | Ok a => k a
  | TypeError => TypeError
  end.

Notation "x <- c ;; k" := (bind c (fun x => k))
  (at level 61, c at next level, right associativity).

(** [forEach] over an array with a callback that may throw: the first
    exception aborts the loop. *)
Fixpoint foldM {A B : Type} (f : A -> B -> Result A) (l : list B) (a : A)
  : Result A :=
  match l with
  | [] => Ok a
  | b :: r => a' <- f a b ;; foldM f r a'
  end.

(** ** String primitives *)

Module JSString.

Definition nl : string := String (ascii_of_nat 10) EmptyString.

Definition isUpper (c : ascii) : bool :=
  ((65 <=? nat_of_ascii c) && (nat_of_ascii c <=? 90))%nat.

Definition isLower (c : ascii) : bool :=
  ((97 <=? nat_of_ascii c) && (nat_of_ascii c <=? 122))%nat.

Definition toLowerChar (c : ascii) : ascii :=
  if isUpper c then ascii_of_nat (nat_of_ascii c + 32) else c.

Definition toUpperChar (c : ascii) : ascii :=
  if isLower c then ascii_of_nat (nat_of_ascii c - 32) else c.

Fixpoint mapChars (f : ascii -> ascii) (s : string) : string :=
  match s with
  | EmptyString => EmptyString
  | String c r => String (f c) (mapChars f r)
  end.

(** [s.toLowerCase()] and [s.toUpperCase()] *)
Definition toLowerCase (s : string) : string := mapChars toLowerChar s.
Definition toUpperCase (s : string) : string := mapChars toUpperChar s.

(** [hay.startsWith(needle)] *)
Fixpoint startsWith (needle hay : string) : bool :=
  match needle, hay with
  | EmptyString, _ => true
  | String _ _, EmptyString => false
  | String a n', String b h' => Ascii.eqb a b && startsWith n' h'
  end.

(** [hay.includes(needle)] *)
Fixpoint includes (hay needle : string) : bool :=
  startsWith needle hay ||
  match hay with
  | EmptyString => false
  | String _ h' => includes h' needle
  end.

(** [s.replaceAll(pat, rep)] for a non-empty [pat]: the matches are found
    from left to right and do not overlap; [skip] counts the characters of
    the current match that are still to be dropped. *)
Fixpoint replaceAllFrom (pat rep : string) (skip : nat) (s : string)
  : string :=
  match s with
  | EmptyString => EmptyString
  | String c r =>
      match skip with
      | S k => replaceAllFrom pat rep k r
      | O =>
          if startsWith pat s
          then rep ++ replaceAllFrom pat rep (String.length pat - 1) r
          else String c (replaceAllFrom pat rep 0 r)
      end
  end.

Definition replaceAll (pat rep s : string) : string :=
  replaceAllFrom pat rep 0 s.

Fixpoint dropChars (n : nat) (s : string) : string :=
  match n, s with
  | O, _ => s
  | S _, EmptyString => EmptyString
  | S k, String _ r => dropChars k r
  end.

(** [s.replace(pat, rep)] with a string pattern: only the first match is
    replaced. *)
Fixpoint replace (pat rep s : string) : string :=
  if startsWith pat s then rep ++ dropChars (String.length pat) s
  else match s with
       | EmptyString => EmptyString
       | String c r => String c (replace pat rep r)
       end.

(** [s.slice(0, 1)] and [s.slice(1)] *)
Definition slice01 (s : string) : string :=
  match s with
  | EmptyString => EmptyString
  | String c _ => String c EmptyString
  end.

Definition slice1 (s : string) : string :=
  match s with
  | EmptyString => EmptyString
  | String _ r => r
  end.

(** White space removed by [trim], on the ASCII range: TAB, LF, VT, FF, CR
    and the space. *)
Definition isSpace (c : ascii) : bool :=
  let n := nat_of_ascii c in
  (((9 <=? n) && (n <=? 13)) || (n =? 32))%nat.

Fixpoint trimStart (s : string) : string :=
  match s with
  | EmptyString => EmptyString
  | String c r => if isSpace c then trimStart r else s
  end.

Fixpoint trimEnd (s : string) : string :=
  match s with
  | EmptyString => EmptyString
  | String c r =>
      match trimEnd r with
      | EmptyString => if isSpace c then EmptyString else String c EmptyString
      | r' => String c r'
      end
  end.

Definition trim (s : string) : string := trimEnd (trimStart s).

(** [arr.join(sep)] *)
Fixpoint join (sep : string) (l : list string) : string :=
  match l with
  | [] => EmptyString
  | [x] => x
  | x :: r => x ++ sep ++ join sep r
  end.

(** [s.repeat(n)] *)
Fixpoint repeat (s : string) (n : nat) : string :=
  match n with
  | O => EmptyString
  | S k => s ++ repeat s k
  end.

(** The decimal numeral of a number, as a template literal prints it. *)
Definition ofNat (n : nat) : string :=
  NilZero.string_of_uint (Nat.to_uint n).

(** A non-empty string is truthy. *)
Definition truthy (s : string) : bool :=
  match s with
  | EmptyString => false
  | String _ _ => true
  end.

(** [arr.includes(x)] on an array of strings *)
Definition inArray (x : string) (arr : list string) : bool :=
  existsb (String.eqb x) arr.

End JSString.
Import JSString.

(** ** Plain objects used as dictionaries *)

Module JSObject.

(** The names every plain object inherits from [Object.prototype]; each of
    them reads as a truthy value that has none of the fields the modelled
    code stores. *)
Definition protoNames : list string :=
  [ "constructor"; "__defineGetter__"; "__defineSetter__"; "hasOwnProperty";
    "__lookupGetter__"; "__lookupSetter__"; "isPrototypeOf";
    "propertyIsEnumerable"; "toString"; "valueOf"; "__proto__";
    "toLocaleString" ].

Definition inherited (k : string) : bool := inArray k protoNames.

Definition isDigit (c : ascii) : bool :=
  ((48 <=? nat_of_ascii c) && (nat_of_ascii c <=? 57))%nat.

Fixpoint digitsValue (s : string) (acc : N) : option N :=
  match s with
  | EmptyString => Some acc
  | String c r =>
      if isDigit c
      then digitsValue r (acc * 10 + N.of_nat (nat_of_ascii c - 48))
      else None
  end.

(** An array index is the canonical decimal numeral of an integer between
    0 and 2^32 - 2. *)
Definition arrayIndex (k : string) : option N :=
  match k with
  | EmptyString => None
  | String c r =>
      if Ascii.eqb c "0"
      then match r with EmptyString => Some 0%N | _ => None end
      else match digitsValue k 0 with
           | Some n => if (n <=? 4294967294)%N then Some n else None
           | None => None
           end
  end.

Definition isArrayIndex (k : string) : bool :=
  match arrayIndex k with Some _ => true | None => false end.

(** Keys that behave as in an insertion-ordered dictionary. *)
Definition ordinaryKey (k : string) : bool :=
  negb (isArrayIndex k) && negb (inherited k).

Section Obj.
Context {V : Type}.

(** The own properties, in creation order; keys are pairwise distinct. *)
Definition t : Type := list (string * V).

Definition empty : t := [].

Fixpoint getOwn (k : string) (o : t) : option V :=
  match o with
  | [] => None
  | (k', v) :: r => if String.eqb k k' then Some v else getOwn k r
  end.

Inductive Lookup : Type :=
| Own (v : V)
| Inherited
| Undefined.

(** [o[k]] *)
Definition get (k : string) (o : t) : Lookup :=
  match getOwn k o with
  | Some v => Own v
  | None => if inherited k then Inherited else Undefined
  end.

(** [o[k] = v] for a key that is not inherited: an existing property
    keeps its place, a new one is created last. *)
Fixpoint set (k : string) (v : V) (o : t) : t :=
  match o with
  | [] => [(k, v)]
  | (k', v') :: r =>
      if String.eqb k k' then (k, v) :: r else (k', v') :: set k v r
  end.

(** The idiom [if (!o[k]) o[k] = init; o[k] <- f(o[k])], where the
    stored values are objects or arrays (always truthy) and [f] mutates
    the stored value in place.  On an inherited name the guard sees a
    truthy value, nothing is created, and the fields read from that
    value are [undefined]: using them throws. *)
Definition modify (k : string) (init : V) (f : V -> Result V) (o : t)
  : Result t :=
  match get k o with
  | Own v => v' <- f v ;; Ok (set k v' o)
  | Undefined => v' <- f init ;; Ok (set k v' o)
  | Inherited => TypeError
  end.

Fixpoint insertIndexed (n : N) (kv : string * V)
  (l : list (N * (string * V))) : list (N * (string * V)) :=
  match l with
  | [] => [(n, kv)]
  | (m, kv') :: r =>
      if (n <? m)%N then (n, kv) :: l else (m, kv') :: insertIndexed n kv r
  end.

Fixpoint indexed (o : t) : list (N * (string * V)) :=
  match o with
  | [] => []
  | kv :: r =>
      match arrayIndex (fst kv) with
      | Some n => insertIndexed n kv (indexed r)
      | None => indexed r
      end
  end.

(** [Object.entries(o)]: array indices in ascending order, then the
    other keys in creation order. *)
Definition entries (o : t) : list (string * V) :=
  (map snd (indexed o)
   ++ filter (fun kv => negb (isArrayIndex (fst kv))) o)%list.

(** [Object.values(o)] *)
Definition values (o : t) : list V := map snd (entries o).

End Obj.
Arguments t V : clear implicits.
Arguments Lookup V : clear implicits.

End JSObject.

(** ** Data model (the interfaces of the sources) *)

Module Quote.
Record t : Type := mk { text : string; reference : string }.
End Quote.

Module Sense.
#[local] Unset Elimination Schemes.
Inductive t : Type :=
  mk { definition : string;
       tags : list string;
       examples : list string;
       quotes : list Quote.t;
       synonyms : list string;
       antonyms : list string;
       translations : list string;
       subsenses : list t }.

(** A sense that only has a definition and subsenses. *)
Definition plain (d : string) (subs : list t) : t :=
  mk d [] [] [] [] [] [] subs.
End Sense.

Module Pronunciation.
Record t : Type := mk { type : string; text : string; tags : list string }.
End Pronunciation.

Module Form.
Record t : Type := mk { word : string; tags : list string }.
End Form.

Module Language.
Record t : Type := mk { code : string; name : string }.
End Language.

Module LanguageEntry.
Record t : Type :=
  mk { language : Language.t;
       partOfSpeech : string;
       pronunciations : list Pronunciation.t;
       forms : list Form.t;
       senses : list Sense.t }.
End LanguageEntry.

Module License.
Record t : Type := mk { name : string; url : string }.
End License.

Module Source.
Record t : Type := mk { url : string; license : License.t }.
End Source.

Module DictionaryEntry.
Record t : Type :=
  mk { word : string; entries : list LanguageEntry.t; source : Source.t }.
End DictionaryEntry.

Definition isEmpty {A : Type} (l : list A) : bool :=
  match l with [] => true | _ => false end.

(** [a.find(p) || d] on an array of strings *)
Definition findOr (p : string -> bool) (l : list string) (d : string)
  : string :=
  match find p l with
  | Some s => if truthy s then s else d
  | None => d
  end.

(** [forEach((x, idx, arr) => ...)] with the state the callback mutates. *)
Fixpoint forEachIdx {A S : Type} (body : S -> A -> nat -> S) (l : list A)
  (idx : nat) (st : S) : S :=
  match l with
  | [] => st
  | x :: r => forEachIdx body r (idx + 1) (body st x idx)
  end.

(** ** The class [Dictionary] *)

Module Dictionary.

Record t : Type := mk { language : string; word : string; urlWord : string }.

(** [new Dictionary(language, word)] *)
Definition new (language word : string) : t := mk language word "".

(** *** renderPronunciations *)

Record PronGroup : Type := mkPronGroup { type : string; text : list string }.

Definition pushText (x : string) (g : PronGroup) : Result PronGroup :=
  Ok (mkPronGroup (type g) (text g ++ [x])%list).

Definition groupPronunciation (grouped : JSObject.t PronGroup)
  (p : Pronunciation.t) : Result (JSObject.t PronGroup) :=
  let init := mkPronGroup (Pronunciation.type p) [] in
  if negb (isEmpty (Pronunciation.tags p))
  then foldM (fun grouped tag =>
                JSObject.modify tag init (pushText (Pronunciation.text p))
                  grouped)
         (Pronunciation.tags p) grouped
  else JSObject.modify "-" init (pushText (Pronunciation.text p)) grouped.

Definition pronunciationRow (md : string) (rg : string * PronGroup)
  : string :=
  let '(region, group) := rg in
  md ++ "| " ++ region ++ " | " ++ join ", " (text group) ++ " | "
     ++ type group ++ " |" ++ nl.

Definition renderPronunciations (pronunciations : list Pronunciation.t)
  : Result string :=
  if isEmpty pronunciations then Ok ""
  else
    grouped <- foldM groupPronunciation pronunciations JSObject.empty ;;
    if isEmpty (JSObject.entries grouped) then Ok ""
    else
      let md := "| Dialect | Pronunciation | Phonetic System | " ++ nl
                ++ "|---|---|---|" ++ nl in
      let md := fold_left pronunciationRow (JSObject.entries grouped) md in
      Ok (md ++ nl ++ nl).

(** *** renderSenses *)

Definition quoteLine (prefix : string) (subMd : string) (q : Quote.t)
  (i : nat) : string :=
  subMd ++ prefix ++ "    - **Quote " ++ ofNat (i + 1) ++ ":** "
        ++ Quote.text q ++ " - _" ++ Quote.reference q ++ "_" ++ nl.

(** The callback of the loop of [renderSubsenses]: [subMd] is the text
    accumulated so far, [arrLen] the length of the array being walked.
    The loop over the children is the one of [renderSubsenses] again, at
    [indent + 1] and from an empty text; it is written in place so that
    the recursion is structural on the sense. *)
Fixpoint subsenseBody (indent arrLen : nat) (subMd : string) (s : Sense.t)
  (idx : nat) {struct s} : string :=
  let prefix := repeat "    " indent in
  let subMd := subMd ++ prefix ++ ofNat (idx + 1) ++ ". "
                     ++ Sense.definition s ++ nl in
  let subMd :=
    if negb (isEmpty (Sense.synonyms s))
    then subMd ++ prefix ++ "    - **Synonyms:** "
               ++ join ", " (Sense.synonyms s) ++ nl
    else subMd in
  let subMd :=
    if negb (isEmpty (Sense.antonyms s))
    then subMd ++ prefix ++ "    - **Antonyms:** "
               ++ join ", " (Sense.antonyms s) ++ nl
    else subMd in
  let subMd :=
    if negb (isEmpty (Sense.examples s))
    then subMd ++ prefix ++ "    - **Examples:** "
               ++ join "; " (Sense.examples s) ++ nl
    else subMd in
  let subMd :=
    if negb (isEmpty (Sense.quotes s))
    then forEachIdx (quoteLine prefix) (Sense.quotes s) 0 subMd
    else subMd in
  let subMd :=
    if negb (isEmpty (Sense.subsenses s))
    then subMd ++
         (fix loop (l : list Sense.t) (i : nat) (acc : string) : string :=
            match l with
            | [] => acc
            | c :: r =>
                loop r (i + 1)
                  (subsenseBody (indent + 1)
                     (List.length (Sense.subsenses s)) acc c i)
            end) (Sense.subsenses s) 0 ""
    else subMd in
  if (idx + 1 =? arrLen)%nat then subMd ++ nl else subMd.

Definition renderSubsenses (subsenses : list Sense.t) (indent : nat)
  : string :=
  forEachIdx (subsenseBody indent (List.length subsenses)) subsenses 0 "".

Definition senseBody (arrLen : nat) (md : string) (t : Sense.t) (j : nat)
  : string :=
  let md := md ++ ofNat (j + 1) ++ ". " ++ Sense.definition t ++ nl in
  let md :=
    if negb (isEmpty (Sense.examples t))
    then md ++ "    - **Examples:** " ++ join "; " (Sense.examples t) ++ nl
    else md in
  let md :=
    if negb (isEmpty (Sense.quotes t))
    then forEachIdx (quoteLine "") (Sense.quotes t) 0 md
    else md in
  let md :=
    if negb (isEmpty (Sense.synonyms t))
    then md ++ "    - **Synonyms:** " ++ join ", " (Sense.synonyms t) ++ nl
    else md in
  let md :=
    if negb (isEmpty (Sense.antonyms t))
    then md ++ "    - **Antonyms:** " ++ join ", " (Sense.antonyms t) ++ nl
    else md in
  let md :=
    if negb (isEmpty (Sense.subsenses t))
    then md ++ renderSubsenses (Sense.subsenses t) 2
    else md in
  if (j + 1 =? arrLen)%nat then md ++ nl ++ nl else md.

Definition renderSenses (senses : list Sense.t) : string :=
  if isEmpty senses then ""
  else forEachIdx (senseBody (List.length senses)) senses 0
         ("### Senses" ++ nl).

(** *** renderForms *)

Definition invalidTags : list string :=
  ["inflection-template"; "table-tags"; "class"].

Definition complexConjugationsLanguages : list string :=
  ["ca"; "cs"; "fr"; "de"; "el"; "hu"; "it"; "la"; "pt"; "ro"; "ru"; "sh";
   "es"; "nl"].

Definition nonfiniteMoods : list string :=
  ["gerund"; "participle"; "infinitive"].

Definition moods : list string :=
  ["indicative"; "subjunctive-i"; "subjunctive-ii"; "subjunctive";
   "imperative"].

Definition tenses : list string :=
  ["future-i"; "future-ii"; "present"; "imperfect"; "preterite"; "future";
   "conditional"; "perfect"; "pluperfect"; "past perfect"; "future perfect";
   "conditional perfect"].

Definition numbers : list string := ["singular"; "plural"].

Definition persons : list string :=
  ["first-person"; "second-person"; "third-person"].

Definition PersonsObj : Type := JSObject.t (list Form.t).
Definition NumbersObj : Type := JSObject.t PersonsObj.
Definition TensesObj : Type := JSObject.t NumbersObj.
Definition Grouped : Type := JSObject.t TensesObj.

(** [f.tags.some(tag => invalidTags.includes(tag))] *)
Definition hasInvalidTag (f : Form.t) : bool :=
  existsb (fun tag => inArray tag invalidTags) (Form.tags f).

(** [for (const t of vocabulary) if (f.word.includes(t.toLowerCase()))
    return;] : whether the loop leaves the callback. *)
Definition wordMentions (word : string) (vocabulary : list string) : bool :=
  existsb (fun t => includes word (toLowerCase t)) vocabulary.

Definition moodOf (f : Form.t) : string :=
  findOr (fun m => inArray m (Form.tags f)) moods
    (match find (fun nm => inArray nm (Form.tags f)) nonfiniteMoods with
     | Some nm => if truthy nm then "non-finite" else "indicative"
     | None => "indicative"
     end).

Definition tenseOf (f : Form.t) : string :=
  findOr (fun t => inArray t (Form.tags f)) tenses "".

Definition numberOf (f : Form.t) : string :=
  findOr (fun n => inArray n (Form.tags f)) numbers "".

Definition personOf (f : Form.t) : string :=
  findOr (fun p => inArray p (Form.tags f)) persons "".

(** Whether the callback of the grouping loop returns before grouping. *)
Definition skipped (f : Form.t) : bool :=
  isEmpty (Form.tags f)
  || hasInvalidTag f
  || wordMentions (Form.word f) tenses
  || wordMentions (Form.word f) numbers
  || wordMentions (Form.word f) persons.

(** The callback of the grouping loop of the complex branch.  The four
    guards [if (!grouped[mood]) grouped[mood] = {}; ...] and the final
    [push] are one nested [modify]; the keys come from the vocabularies
    above, never from the names an object inherits. *)
Definition groupForm (grouped : Grouped) (f : Form.t) : Result Grouped :=
  if isEmpty (Form.tags f) then Ok grouped
  else if hasInvalidTag f then Ok grouped
  else if wordMentions (Form.word f) tenses then Ok grouped
  else if wordMentions (Form.word f) numbers then Ok grouped
  else if wordMentions (Form.word f) persons then Ok grouped
  else
    JSObject.modify (moodOf f) JSObject.empty
      (JSObject.modify (tenseOf f) JSObject.empty
         (JSObject.modify (numberOf f) JSObject.empty
            (JSObject.modify (personOf f) []
               (fun formsArr => Ok (formsArr ++ [f])%list))))
      grouped.

(** The state the rendering loops mutate: the text [md] and the array
    [rows] of the rows already written. *)
Definition RenderState : Type := (string * list string)%type.

(** [if (!rows.includes(row)) { md += row; rows.push(row); }] *)
Definition emitRow (st : RenderState) (row : string) : RenderState :=
  let '(md, rows) := st in
  if inArray row rows then st else (md ++ row, (rows ++ [row])%list).

Definition nonFiniteRow (f : Form.t) : string :=
  "| " ++ join ", " (Form.tags f) ++ " | " ++ Form.word f ++ " |" ++ nl.

Definition finiteRow (person number : string) (f : Form.t) : string :=
  "| " ++ person ++ " " ++ number ++ " | " ++ Form.word f ++ " |" ++ nl.

Definition nonFiniteRows (st : RenderState) (numbersObj : NumbersObj)
  : RenderState :=
  fold_left (fun st (np : string * PersonsObj) =>
    fold_left (fun st (pf : string * list Form.t) =>
      fold_left (fun st f => emitRow st (nonFiniteRow f)) (snd pf) st)
      (JSObject.entries (snd np)) st)
    (JSObject.entries numbersObj) st.

Definition finiteRows (st : RenderState) (numbersObj : NumbersObj)
  : RenderState :=
  fold_left (fun st (np : string * PersonsObj) =>
    let number := fst np in
    fold_left (fun st (pf : string * list Form.t) =>
      let person := fst pf in
      fold_left (fun st f => emitRow st (finiteRow person number f))
        (snd pf) st)
      (JSObject.entries (snd np)) st)
    (JSObject.entries numbersObj) st.

(** [`##### Tense: ${tense || mood === 'imperative' ? "present" : ""}\n`]:
    the conditional operator binds weaker than [||], so the condition is
    [tense || mood === 'imperative']. *)
Definition tenseHeading (mood tense : string) : string :=
  "##### Tense: "
  ++ (if truthy tense || String.eqb mood "imperative" then "present" else "")
  ++ nl.

(** The callback of the loop over the tense buckets of one mood. *)
Definition tenseStep (mood : string) (nonFinite : bool) (st : RenderState)
  (bucket : string * NumbersObj) : RenderState :=
  let '(tense, numbersObj) := bucket in
  if nonFinite then
    if truthy tense && negb (String.eqb mood "imperative") then st
    else
      let st := nonFiniteRows st numbersObj in
      (fst st, [])
  else
    if negb (truthy tense) && negb (String.eqb mood "imperative") then st
    else
      let md := fst st ++ tenseHeading mood tense in
      let md := md ++ "| Person & Number | Form |" ++ nl ++ "|---|---|" ++ nl in
      let st := finiteRows (md, snd st) numbersObj in
      (fst st, []).

(** The callback of the loop over the mood groups. *)
Definition moodStep (st : RenderState) (group : string * TensesObj)
  : RenderState :=
  let '(mood, tensesObj) := group in
  let nonFinite := String.eqb mood "non-finite" in
  let md := fst st ++ "#### "
            ++ (if nonFinite then "Non-finite forms" else "Mood: " ++ mood)
            ++ nl in
  let md := if nonFinite
            then md ++ "| Name | Form |" ++ nl ++ "|---|---|" ++ nl
            else md in
  let st := fold_left (tenseStep mood nonFinite)
              (JSObject.entries tensesObj) (md, snd st) in
  (fst st ++ nl, snd st).

Definition simpleBullet (md : string) (f : Form.t) : string :=
  if negb (hasInvalidTag f)
  then md ++ "- " ++ Form.word f ++ " (" ++ join ", " (Form.tags f) ++ ")"
          ++ nl
  else md.

Definition renderForms (this : t) (forms : list Form.t) : Result string :=
  if isEmpty forms then Ok ""
  else
    let md := "### Forms" ++ nl in
    if inArray (language this) complexConjugationsLanguages
    then
      grouped <- foldM groupForm forms JSObject.empty ;;
      let st := fold_left moodStep (JSObject.entries grouped) (md, []) in
      Ok (fst st ++ nl ++ nl)
    else
      let md := fold_left simpleBullet forms md in
      Ok (md ++ nl ++ nl).

(** *** renderMarkdown *)

Record Group : Type :=
  mkGroup { g_language : Language.t;
            partOfSpeech : string;
            pronunciations : list Pronunciation.t;
            forms : list Form.t;
            senses : list Sense.t }.

(** [s.slice(0, 1).toUpperCase() + s.slice(1)] *)
Definition capitalize (s : string) : string :=
  toUpperCase (slice01 s) ++ slice1 s.

(** The callback of the grouping loop of [renderMarkdown]. *)
Definition groupEntry (groupedEntries : JSObject.t Group)
  (e : LanguageEntry.t) : Result (JSObject.t Group) :=
  JSObject.modify (LanguageEntry.partOfSpeech e)
    (mkGroup (LanguageEntry.language e) (LanguageEntry.partOfSpeech e)
       [] [] [])
    (fun g =>
       Ok (mkGroup (g_language g) (partOfSpeech g)
             (pronunciations g ++ LanguageEntry.pronunciations e)%list
             (forms g ++ LanguageEntry.forms e)%list
             (senses g ++ LanguageEntry.senses e)%list))
    groupedEntries.

(** The callback of the loop that writes one section per group. *)
Definition renderSection (this : t) (md : string) (e : Group)
  : Result string :=
  let md := md ++ "## " ++ capitalize (partOfSpeech e) ++ nl in
  p <- renderPronunciations (pronunciations e) ;;
  let md := md ++ p in
  let md := md ++ renderSenses (senses e) in
  f <- renderForms this (forms e) ;;
  Ok (md ++ f).

Definition header (word urlWord : string) : string :=
  "" ++ "# " ++ capitalize word ++ nl
     ++ "Source: [" ++ urlWord ++ "](" ++ urlWord ++ ")" ++ nl ++ nl.

(** The text built by [renderMarkdown] before its last line. *)
Definition rawMarkdown (this : t) (entry : DictionaryEntry.t)
  : Result string :=
  let urlWord :=
    replaceAll " " "%20" (Source.url (DictionaryEntry.source entry)) in
  let md := header (DictionaryEntry.word entry) urlWord in
  groupedEntries <-
    foldM groupEntry (DictionaryEntry.entries entry) JSObject.empty ;;
  foldM (renderSection this) (JSObject.values groupedEntries) md.

(** [renderMarkdown] returns the new state of the object (its [urlWord]
    is assigned before anything can throw) and the text or the exception. *)
Definition renderMarkdown (this : t) (entry : DictionaryEntry.t)
  : t * Result string :=
  let urlWord :=
    replaceAll " " "%20" (Source.url (DictionaryEntry.source entry)) in
  let this' := mk (language this) (word this) urlWord in
  (this', md <- rawMarkdown this' entry ;; Ok (replaceAll ".." "." md)).

(** [get getURL()] *)
Definition getURL (this : t) : string := urlWord this.

End Dictionary.

(** ** The class [Favorite] *)

Module FavoriteEntry.
Record t : Type :=
  mk { language : string; word : string; markdown : string; url : string }.
End FavoriteEntry.

Module Favorite.

(** The item stored in LocalStorage under the key ["favorites"]: absent,
    or the JSON text of an array of entries, which [JSON.parse] reads
    back as it was written. *)
Definition Storage : Type := option (list FavoriteEntry.t).

Definition formatText (t : string) : string :=
  replace "  " " " (toLowerCase (trim t)).

Definition getEntries (st : Storage) : list FavoriteEntry.t :=
  match st with
  | Some entries => entries
  | None => []
  end.

Definition sameKey (language word : string) (fav : FavoriteEntry.t) : bool :=
  String.eqb (FavoriteEntry.language fav) language
  && String.eqb (FavoriteEntry.word fav) word.

Section Sorting.
(** [a.localeCompare(b)] depends on the collation of the host; it is a
    parameter of the model. *)
Variable localeCompare : string -> string -> Z.

Fixpoint insertSorted (x : FavoriteEntry.t) (l : list FavoriteEntry.t)
  : list FavoriteEntry.t :=
  match l with
  | [] => [x]
  | y :: r =>
      if (localeCompare (FavoriteEntry.word x) (FavoriteEntry.word y) <? 0)%Z
      then x :: l
      else y :: insertSorted x r
  end.

(** [favorites.sort((a, b) => a.word.localeCompare(b.word))], a stable
    sort. *)
Definition sort (l : list FavoriteEntry.t) : list FavoriteEntry.t :=
  fold_left (fun sorted x => insertSorted x sorted) l [].

Definition addEntry (language word markdown url : string) (st : Storage)
  : Storage :=
  let favorites := getEntries st in
  let exists_ :=
    match find (sameKey language word) favorites with
    | Some _ => true
    | None => false
    end in
  if negb exists_
  then
    let favorites :=
      (favorites
       ++ [FavoriteEntry.mk (formatText language) (formatText word)
             markdown url])%list in
    Some (sort favorites)
  else st.
End Sorting.

Definition removeEntry (language word : string) (st : Storage) : Storage :=
  Some (filter (fun fav =>
                  negb (String.eqb (FavoriteEntry.language fav) language)
                  || negb (String.eqb (FavoriteEntry.word fav) word))
          (getEntries st)).

Definition exist (language word : string) (st : Storage) : bool :=
  existsb (sameKey language word) (getEntries st).

End Favorite.

(** ** The favorites list (list.tsx) *)

Module FavoritesList.

(** The callback of [favorites.reduce]: [if (!acc[fav.language])
    acc[fav.language] = []; acc[fav.language].push(fav.word)]. *)
Definition groupWord (acc : JSObject.t (list string)) (fav : FavoriteEntry.t)
  : Result (JSObject.t (list string)) :=
  JSObject.modify (FavoriteEntry.language fav) []
    (fun words => Ok (words ++ [FavoriteEntry.word fav])%list) acc.

(** [Object.entries(favorites.reduce(..., {}))]: the sections of the list,
    each a language with its words. *)
Definition sections (favorites : list FavoriteEntry.t)
  : Result (list (string * list string)) :=
  acc <- foldM groupWord favorites JSObject.empty ;;
  Ok (JSObject.entries acc).

End FavoritesList.

(** * Definitions used in the statements *)

Section Statements.
Import Dictionary.

(** ** Forms *)

Definition es : Dictionary.t := Dictionary.new "es" "hablar".

(** The text of the bullets of the simple branch. *)
Definition bullets (forms : list Form.t) : string :=
  fold_left simpleBullet forms "".

(** ** Senses *)

(** The texts a loop with an index appends, one per element. *)
Fixpoint mapIdx {A B : Type} (g : A -> nat -> B) (l : list A) (idx : nat)
  : list B :=
  match l with
  | [] => []
  | x :: r => g x idx :: mapIdx g r (idx + 1)
  end.

Definition quoteLines (prefix : string) (quotes : list Quote.t) : string :=
  join "" (mapIdx (quoteLine prefix "") quotes 0).

(** The lines written for the fields of a nested sense, in the order of the
    source: synonyms, antonyms, examples, quotes. *)
Definition subsenseDetails (prefix : string) (s : Sense.t) : string :=
  (if negb (isEmpty (Sense.synonyms s))
   then prefix ++ "    - **Synonyms:** " ++ join ", " (Sense.synonyms s) ++ nl
   else "")
  ++ (if negb (isEmpty (Sense.antonyms s))
      then prefix ++ "    - **Antonyms:** " ++ join ", " (Sense.antonyms s)
                  ++ nl
      else "")
  ++ (if negb (isEmpty (Sense.examples s))
      then prefix ++ "    - **Examples:** " ++ join "; " (Sense.examples s)
                  ++ nl
      else "")
  ++ quoteLines prefix (Sense.quotes s).

(** The lines written for the fields of a top-level sense: examples, quotes,
    synonyms, antonyms. *)
Definition senseDetails (t : Sense.t) : string :=
  (if negb (isEmpty (Sense.examples t))
   then "    - **Examples:** " ++ join "; " (Sense.examples t) ++ nl
   else "")
  ++ quoteLines "" (Sense.quotes t)
  ++ (if negb (isEmpty (Sense.synonyms t))
      then "    - **Synonyms:** " ++ join ", " (Sense.synonyms t) ++ nl
      else "")
  ++ (if negb (isEmpty (Sense.antonyms t))
      then "    - **Antonyms:** " ++ join ", " (Sense.antonyms t) ++ nl
      else "").

(** What one nested sense contributes, after the text accumulated so far. *)
Definition subsenseItem (indent : nat) (s : Sense.t) (idx : nat) : string :=
  repeat "    " indent ++ ofNat (idx + 1) ++ ". " ++ Sense.definition s ++ nl
  ++ subsenseDetails (repeat "    " indent) s
  ++ renderSubsenses (Sense.subsenses s) (indent + 1).

Definition senseItem (t : Sense.t) (j : nat) : string :=
  ofNat (j + 1) ++ ". " ++ Sense.definition t ++ nl
  ++ senseDetails t
  ++ renderSubsenses (Sense.subsenses t) 2.

(** ** Tables of the complex branch *)

(** The rows a table keeps: each row the first time it comes, unless it is
    among the rows [seen] already. *)
Fixpoint dedupFrom (seen rows : list string) : list string :=
  match rows with
  | [] => []
  | row :: r =>
      if inArray row seen then dedupFrom seen r
      else row :: dedupFrom (seen ++ [row]) r
  end.

Definition distinctRows (rows : list string) : list string :=
  dedupFrom [] rows.

(** The rows the forms of one tense bucket produce, duplicates included, in
    the order the loops visit them. *)
Definition bucketRows (numbersObj : NumbersObj) : list string :=
  flat_map (fun np : string * PersonsObj =>
    flat_map (fun pf : string * list Form.t =>
      map (finiteRow (fst pf) (fst np)) (snd pf))
      (JSObject.entries (snd np)))
    (JSObject.entries numbersObj).

(** The text one tense bucket of a finite mood adds when the array of rows
    is empty on entry. *)
Definition tenseTable (mood : string) (bucket : string * NumbersObj)
  : string :=
  if negb (truthy (fst bucket)) && negb (String.eqb mood "imperative")
  then ""
  else tenseHeading mood (fst bucket)
       ++ "| Person & Number | Form |" ++ nl ++ "|---|---|" ++ nl
       ++ join "" (distinctRows (bucketRows (snd bucket))).

(** ** Records used as examples *)

Definition waitEntry : DictionaryEntry.t :=
  DictionaryEntry.mk "wait"
    [LanguageEntry.mk (Language.mk "en" "English") "interjection" [] []
       [Sense.plain "hold on..." []]]
    (Source.mk "https://example.com/wait" (License.mk "X" "y")).

Definition runEntry : DictionaryEntry.t :=
  DictionaryEntry.mk "run"
    [LanguageEntry.mk (Language.mk "en" "English") "verb"
       [Pronunciation.mk "IPA" "run" ["US"]]
       [Form.mk "running" ["gerund"]]
       [Sense.mk "move fast, etc.." [] ["he ran"] [] ["sprint"] [] [] []]]
    (Source.mk "https://example.com/run" (License.mk "X" "y")).

Definition runMarkdown : string :=
  "# Run" ++ nl
  ++ "Source: [https://example.com/run](https://example.com/run)" ++ nl ++ nl
  ++ "## Verb" ++ nl
  ++ "| Dialect | Pronunciation | Phonetic System | " ++ nl
  ++ "|---|---|---|" ++ nl
  ++ "| US | run | IPA |" ++ nl ++ nl ++ nl
  ++ "### Senses" ++ nl
  ++ "1. move fast, etc." ++ nl
  ++ "    - **Examples:** he ran" ++ nl
  ++ "    - **Synonyms:** sprint" ++ nl ++ nl ++ nl
  ++ "### Forms" ++ nl
  ++ "- running (gerund)" ++ nl ++ nl ++ nl.

(** ** Grouping in a plain object *)

Section GroupingDefinitions.
Context {X V : Type}.

(** The items that come with a key not seen before, in order. *)
Fixpoint firstsFrom (seen : list string) (items : list (string * X))
  : list (string * X) :=
  match items with
  | [] => []
  | kx :: r =>
      if inArray (fst kx) seen then firstsFrom seen r
      else kx :: firstsFrom (fst kx :: seen) r
  end.

Definition firsts (items : list (string * X)) : list (string * X) :=
  firstsFrom [] items.

(** The items that come with the key [k], in order. *)
Definition members (k : string) (items : list (string * X)) : list X :=
  map snd (filter (fun kx => String.eqb (fst kx) k) items).

Variable init : X -> V.
Variable add : X -> V -> V.

(** The step of a grouping loop:
    [if (!o[k]) o[k] = init(x); add(x, o[k])]. *)
Definition groupStep (o : JSObject.t V) (kx : string * X)
  : Result (JSObject.t V) :=
  JSObject.modify (fst kx) (init (snd kx)) (fun v => Ok (add (snd kx) v)) o.

(** The group of the key first met with [kx0]: created from [kx0], then
    filled with every item of that key. *)
Definition groupOf (items : list (string * X)) (kx0 : string * X)
  : string * V :=
  (fst kx0,
   fold_left (fun v x => add x v) (members (fst kx0) items) (init (snd kx0))).

Definition firstEncounter (items : list (string * X)) : list (string * V) :=
  map (groupOf items) (firsts items).

Definition upsert (k : string) (x : X) (o : JSObject.t V) : JSObject.t V :=
  match JSObject.getOwn k o with
  | Some v => JSObject.set k (add x v) o
  | None => JSObject.set k (add x (init x)) o
  end.

End GroupingDefinitions.

(** ** Grouping by part of speech *)

Definition keyed (e : LanguageEntry.t) : string * LanguageEntry.t :=
  (LanguageEntry.partOfSpeech e, e).

Definition newGroup (e : LanguageEntry.t) : Group :=
  mkGroup (LanguageEntry.language e) (LanguageEntry.partOfSpeech e) [] [] [].

Definition pushEntry (e : LanguageEntry.t) (g : Group) : Group :=
  mkGroup (g_language g) (partOfSpeech g)
    (pronunciations g ++ LanguageEntry.pronunciations e)%list
    (forms g ++ LanguageEntry.forms e)%list
    (senses g ++ LanguageEntry.senses e)%list.

(** The group of a part of speech, in the words of the specification: the
    language and the tag of the first entry with that tag, and the
    pronunciations, forms and senses of all the entries [sharing] the tag,
    concatenated in order. *)
Definition mergeGroup (e0 : LanguageEntry.t) (sharing : list LanguageEntry.t)
  : Group :=
  mkGroup (LanguageEntry.language e0) (LanguageEntry.partOfSpeech e0)
    (flat_map LanguageEntry.pronunciations sharing)
    (flat_map LanguageEntry.forms sharing)
    (flat_map LanguageEntry.senses sharing).

(** One group per tag, in the order the tags are first met. *)
Definition firstEncounterGroups (entries : list LanguageEntry.t)
  : list Group :=
  map (fun kx0 =>
         mergeGroup (snd kx0) (members (fst kx0) (map keyed entries)))
    (firsts (map keyed entries)).

Definition someSource : Source.t :=
  Source.mk "https://example.com/w" (License.mk "X" "y").

Definition english : Language.t := Language.mk "en" "English".

(** Two entries whose tags are the numerals 2 and 1, in that order. *)
Definition numberedEntry : DictionaryEntry.t :=
  DictionaryEntry.mk "w"
    [LanguageEntry.mk english "2" [] [] [Sense.plain "met first" []];
     LanguageEntry.mk english "1" [] [] [Sense.plain "met second" []]]
    someSource.

Definition nounVerbNoun : DictionaryEntry.t :=
  DictionaryEntry.mk "run"
    [LanguageEntry.mk english "noun" [] [] [Sense.plain "a race" []];
     LanguageEntry.mk english "verb" [] [] [Sense.plain "move fast" []];
     LanguageEntry.mk english "noun" [] [] [Sense.plain "a route" []]]
    someSource.

(** ** The pronunciation table *)

(** The buckets a pronunciation is added to, in order: one per tag, or the
    sentinel [-] when it has no tag. *)
Definition taggingsOf (p : Pronunciation.t) : list (string * Pronunciation.t) :=
  map (fun tag => (tag, p))
    (if isEmpty (Pronunciation.tags p) then ["-"] else Pronunciation.tags p).

Definition taggings (pronunciations : list Pronunciation.t)
  : list (string * Pronunciation.t) :=
  flat_map taggingsOf pronunciations.

Definition newPronGroup (p : Pronunciation.t) : PronGroup :=
  mkPronGroup (Pronunciation.type p) [].

Definition pushPron (p : Pronunciation.t) (g : PronGroup) : PronGroup :=
  mkPronGroup (type g) (text g ++ [Pronunciation.text p])%list.

(** The row of a dialect, in the words of the specification: the tag, the
    texts of all the pronunciations that carry it joined with a comma, and
    the phonetic system of the first of them. *)
Definition dialectRow (pronunciations : list Pronunciation.t)
  (first : string * Pronunciation.t) : string :=
  "| " ++ fst first ++ " | "
  ++ join ", "
       (map Pronunciation.text (members (fst first) (taggings pronunciations)))
  ++ " | " ++ Pronunciation.type (snd first) ++ " |" ++ nl.

(** The table with one row per tag, in the order the tags are first met. *)
Definition pronunciationTable (pronunciations : list Pronunciation.t)
  : string :=
  "| Dialect | Pronunciation | Phonetic System | " ++ nl
  ++ "|---|---|---|" ++ nl
  ++ join ""
       (map (dialectRow pronunciations) (firsts (taggings pronunciations)))
  ++ nl ++ nl.

Definition numberedDialects : list Pronunciation.t :=
  [Pronunciation.mk "IPA" "met first" ["2"];
   Pronunciation.mk "IPA" "met second" ["1"]].

Definition twoDialects : list Pronunciation.t :=
  [Pronunciation.mk "IPA" "fu:" ["UK"; "US"];
   Pronunciation.mk "enPR" "foo" ["US"];
   Pronunciation.mk "X-SAMPA" "fu" []].

(** ** The favorites store *)

(** The key of a stored entry. *)
Definition keyOf (fav : FavoriteEntry.t) : string * string :=
  (FavoriteEntry.language fav, FavoriteEntry.word fav).

(** The order [sort] leaves between neighbours: the later word does not
    compare below the earlier one. *)
Definition inOrder (localeCompare : string -> string -> Z)
  (a b : FavoriteEntry.t) : Prop :=
  (localeCompare (FavoriteEntry.word b) (FavoriteEntry.word a) <? 0)%Z = false.

(** A collation used in examples: the order of the code units. *)
Definition wordOrder (a b : string) : Z :=
  match String.compare a b with
  | Lt => (-1)%Z
  | Eq => 0%Z
  | Gt => 1%Z
  end.

Fixpoint allChars (p : ascii -> bool) (s : string) : bool :=
  match s with
  | EmptyString => true
  | String c r => p c && allChars p r
  end.

(** No letter between A and Z. *)
Definition noUpper (s : string) : bool :=
  allChars (fun c => negb (isUpper c)) s.

Definition lowerKey (fav : FavoriteEntry.t) : Prop :=
  noUpper (FavoriteEntry.language fav) = true
  /\ noUpper (FavoriteEntry.word fav) = true.

(** ** More on the forms *)

(** The forms the grouping loop of the complex branch does not leave
    aside. *)
Definition kept (f : Form.t) : bool := negb (skipped f).

(** The bullet of a form in the simple branch. *)
Definition bulletLine (f : Form.t) : string :=
  "- " ++ Form.word f ++ " (" ++ join ", " (Form.tags f) ++ ")" ++ nl.

(** The rows the forms of one bucket of the non-finite group produce,
    duplicates included. *)
Definition nonFiniteBucketRows (numbersObj : NumbersObj) : list string :=
  flat_map (fun np : string * PersonsObj =>
    flat_map (fun pf : string * list Form.t => map nonFiniteRow (snd pf))
      (JSObject.entries (snd np)))
    (JSObject.entries numbersObj).

(** The rows one bucket of the non-finite group adds when the array of rows
    is empty on entry: none when the bucket has a tense. *)
Definition nonFiniteTable (bucket : string * NumbersObj) : string :=
  if truthy (fst bucket) then ""
  else join "" (distinctRows (nonFiniteBucketRows (snd bucket))).

(** The text of one mood group. *)
Definition moodSection (group : string * TensesObj) : string :=
  (if String.eqb (fst group) "non-finite"
   then "#### Non-finite forms" ++ nl
        ++ "| Name | Form |" ++ nl ++ "|---|---|" ++ nl
        ++ join "" (map nonFiniteTable (JSObject.entries (snd group)))
   else "#### Mood: " ++ fst group ++ nl
        ++ join "" (map (tenseTable (fst group))
                      (JSObject.entries (snd group))))
  ++ nl.

(** ** The complex branch, from the forms *)

(** The elements of a list grouped by a key: the keys in the order they are
    first met, each with the elements that have it, in input order. *)
Definition groupedBy {A : Type} (key : A -> string) (l : list A)
  : list (string * list A) :=
  map (fun k => (k, filter (fun x => String.eqb (key x) k) l))
    (distinctRows (map key l)).

(** The object with one property per key, in that order, whose value is
    computed from the elements that have the key. *)
Definition objectOf {A V : Type} (key : A -> string) (val : list A -> V)
  (l : list A) : JSObject.t V :=
  map (fun kg => (fst kg, val (snd kg))) (groupedBy key l).

(** The four levels of the grouped object, from a list of forms. *)
Definition personsOf (fs : list Form.t) : PersonsObj :=
  objectOf personOf (fun formsArr => formsArr) fs.

Definition numbersOf (fs : list Form.t) : NumbersObj :=
  objectOf numberOf personsOf fs.

Definition tensesOf (fs : list Form.t) : TensesObj :=
  objectOf tenseOf numbersOf fs.

Definition groupedOf (forms : list Form.t) : Grouped :=
  objectOf moodOf tensesOf (filter kept forms).

(** What the grouping callback does to each level for a form it keeps. *)
Definition pushForm (f : Form.t) (formsArr : list Form.t) : list Form.t :=
  (formsArr ++ [f])%list.

Definition addPerson (f : Form.t) (personsObj : PersonsObj) : PersonsObj :=
  upsert (fun _ : Form.t => @nil Form.t) pushForm (personOf f) f personsObj.

Definition addNumber (f : Form.t) (numbersObj : NumbersObj) : NumbersObj :=
  upsert (fun _ : Form.t => (JSObject.empty : PersonsObj)) addPerson
    (numberOf f) f numbersObj.

Definition addTense (f : Form.t) (tensesObj : TensesObj) : TensesObj :=
  upsert (fun _ : Form.t => (JSObject.empty : NumbersObj)) addNumber
    (tenseOf f) f tensesObj.

(** The rows of the forms of one tense bucket of a finite mood, duplicates
    included: by number, then by person, then in input order. *)
Definition finiteRowsOf (fs : list Form.t) : list string :=
  flat_map (fun ng : string * list Form.t =>
    flat_map (fun pg : string * list Form.t =>
      map (finiteRow (fst pg) (fst ng)) (snd pg))
      (groupedBy personOf (snd ng)))
    (groupedBy numberOf fs).

Definition nonFiniteRowsOf (fs : list Form.t) : list string :=
  flat_map (fun ng : string * list Form.t =>
    flat_map (fun pg : string * list Form.t => map nonFiniteRow (snd pg))
      (groupedBy personOf (snd ng)))
    (groupedBy numberOf fs).

(** The table of one tense bucket of a finite mood: nothing when the bucket
    is skipped, else the sub-heading, the header of the table and the
    distinct rows of the forms of this bucket alone. *)
Definition finiteTenseTable (mood : string) (tg : string * list Form.t)
  : string :=
  if negb (truthy (fst tg)) && negb (String.eqb mood "imperative")
  then ""
  else tenseHeading mood (fst tg)
       ++ "| Person & Number | Form |" ++ nl ++ "|---|---|" ++ nl
       ++ join "" (distinctRows (finiteRowsOf (snd tg))).

Definition nonFiniteTenseTable (tg : string * list Form.t) : string :=
  if truthy (fst tg) then ""
  else join "" (distinctRows (nonFiniteRowsOf (snd tg))).

(** The block of one mood, from the forms that have it. *)
Definition moodBlock (mg : string * list Form.t) : string :=
  (if String.eqb (fst mg) "non-finite"
   then "#### Non-finite forms" ++ nl
        ++ "| Name | Form |" ++ nl ++ "|---|---|" ++ nl
        ++ join "" (map nonFiniteTenseTable (groupedBy tenseOf (snd mg)))
   else "#### Mood: " ++ fst mg ++ nl
        ++ join "" (map (finiteTenseTable (fst mg))
                      (groupedBy tenseOf (snd mg))))
  ++ nl.

(** The Forms section of the complex branch, from the forms: the forms the
    grouping keeps, by mood, then by tense. *)
Definition complexSection (forms : list Form.t) : string :=
  "### Forms" ++ nl
  ++ join "" (map moodBlock (groupedBy moodOf (filter kept forms)))
  ++ nl ++ nl.

(** The same row twice in the bucket (indicative, present), once more in
    the bucket (indicative, future). *)
Definition habloForms : list Form.t :=
  [Form.mk "hablo" ["indicative"; "present"; "singular"; "first-person"];
   Form.mk "hablo" ["present"; "singular"; "first-person"];
   Form.mk "hablo" ["indicative"; "future"; "singular"; "first-person"]].

(** ** More on the senses *)

(** The sense without its tags and translations, at every depth. *)
Fixpoint clearUnused (s : Sense.t) : Sense.t :=
  Sense.mk (Sense.definition s) [] (Sense.examples s) (Sense.quotes s)
    (Sense.synonyms s) (Sense.antonyms s) []
    (map clearUnused (Sense.subsenses s)).

(** ** The favorites list *)

(** The section of a language: the words of the favorites of that language,
    in stored order. *)
Definition languageSection (favorites : list FavoriteEntry.t)
  (first : string * FavoriteEntry.t) : string * list string :=
  (fst first,
   map FavoriteEntry.word
     (members (fst first)
        (map (fun fav => (FavoriteEntry.language fav, fav)) favorites))).

End Statements.

(** * Properties *)

(** ** Strings and loops *)

Lemma append_nil_r (s : string) : s ++ "" = s.
Proof. induction s as [|c s IH]; simpl; [reflexivity | now rewrite IH]. Qed.

Lemma append_assoc (a b c : string) : (a ++ b) ++ c = a ++ (b ++ c).
Proof. induction a as [|x a IH]; simpl; [reflexivity | now rewrite IH]. Qed.

Lemma foldM_app {A B : Type} (f : A -> B -> Result A) (l1 l2 : list B) (a : A) :
  foldM f (l1 ++ l2)%list a = (a' <- foldM f l1 a ;; foldM f l2 a').
Proof.
  revert a; induction l1 as [|b l1 IH]; intros a; simpl; [reflexivity|].
  destruct (f a b) as [a'|]; simpl; [apply IH | reflexivity].
Qed.

Lemma inArray_In (x : string) (l : list string) :
  inArray x l = true <-> In x l.
Proof.
  unfold inArray. rewrite existsb_exists. split.
  - intros [y [Hy He]]. apply String.eqb_eq in He. now subst.
  - intros H. exists x. split; [assumption | apply String.eqb_refl].
Qed.

Lemma inArray_false (x : string) (l : list string) :
  inArray x l = false <-> ~ In x l.
Proof.
  rewrite <- inArray_In. destruct (inArray x l); split; congruence.
Qed.

(** A loop whose callback only appends to the accumulated text. *)
Lemma fold_left_appends {A : Type} (body : string -> A -> string)
  (g : A -> string) (l : list A) :
  (forall md x, body md x = md ++ g x) ->
  forall md, fold_left body l md = md ++ join "" (map g l).
Proof.
  intros Hb. induction l as [|x l IH]; intros md; simpl.
  - now rewrite append_nil_r.
  - rewrite IH, Hb, append_assoc. destruct l; simpl; [|reflexivity].
    now rewrite append_nil_r.
Qed.

Lemma join_empty_cons (x : string) (l : list string) :
  join "" (x :: l) = x ++ join "" l.
Proof. destruct l; simpl; [now rewrite append_nil_r | reflexivity]. Qed.

Lemma join_empty_app (l1 l2 : list string) :
  join "" (l1 ++ l2)%list = join "" l1 ++ join "" l2.
Proof.
  induction l1 as [|x l1 IH]; [reflexivity|].
  change ((x :: l1) ++ l2)%list with (x :: (l1 ++ l2))%list.
  now rewrite !join_empty_cons, IH, append_assoc.
Qed.

(** ** Empty inputs *)

(** C8. Empty inputs produce empty output and no exception: an empty
    pronunciation array, an empty forms array and an empty senses array each
    render to the empty string, and a record without entries renders to the
    title line and the source line only (after the final replacement of
    doubled periods, which is applied to the header too). *)
Theorem empty_inputs_render_empty :
  Dictionary.renderPronunciations [] = Ok ""
  /\ (forall this, Dictionary.renderForms this [] = Ok "")
  /\ Dictionary.renderSenses [] = ""
  /\ (forall this word source,
        let urlWord := replaceAll " " "%20" (Source.url source) in
        snd (Dictionary.renderMarkdown this
               (DictionaryEntry.mk word [] source))
        = Ok (replaceAll ".." "."
                ("# " ++ Dictionary.capitalize word ++ nl
                 ++ "Source: [" ++ urlWord ++ "](" ++ urlWord ++ ")"
                 ++ nl ++ nl))).
Proof.
  repeat split; intros; reflexivity.
Qed.

(** ** Forms *)

Section Forms.
Import Dictionary.

Lemma simpleBullet_appends (md : string) (f : Form.t) :
  simpleBullet md f = md ++ simpleBullet "" f.
Proof.
  unfold simpleBullet. destruct (negb (hasInvalidTag f)); simpl.
  - reflexivity.
  - now rewrite append_nil_r.
Qed.

Lemma bullets_from (forms : list Form.t) (md : string) :
  fold_left simpleBullet forms md = md ++ bullets forms.
Proof.
  unfold bullets.
  rewrite (fold_left_appends simpleBullet (simpleBullet "")) by
    apply simpleBullet_appends.
  rewrite (fold_left_appends simpleBullet (simpleBullet "") forms) by
    apply simpleBullet_appends.
  reflexivity.
Qed.

Lemma bullets_app (l1 l2 : list Form.t) :
  bullets (l1 ++ l2) = bullets l1 ++ bullets l2.
Proof.
  unfold bullets at 1. rewrite fold_left_app.
  fold (bullets l1). apply bullets_from.
Qed.

Lemma groupForm_untagged (grouped : Grouped) (word : string) :
  groupForm grouped (Form.mk word []) = Ok grouped.
Proof. reflexivity. Qed.

Lemma foldM_groupForm_untagged (before after : list Form.t) (word : string)
  (grouped : Grouped) :
  foldM groupForm (before ++ Form.mk word [] :: after) grouped
  = foldM groupForm (before ++ after) grouped.
Proof.
  rewrite !foldM_app. destruct (foldM groupForm before grouped); reflexivity.
Qed.

(** C10. A form without tags is handled differently by the two branches.
    In the complex branch it is dropped before grouping: the section is
    the one rendered without it (and only the heading when no other form
    is given).  In the simple branch it is written as the bullet
    [- word ()], between the bullets of the forms before and after it. *)
Theorem untagged_form_asymmetry :
  forall (this : Dictionary.t) (word : string) (before after : list Form.t),
    renderForms this (before ++ Form.mk word [] :: after)
    = if inArray (language this) complexConjugationsLanguages
      then (if isEmpty (before ++ after)
            then Ok ("### Forms" ++ nl ++ nl ++ nl)
            else renderForms this (before ++ after))
      else Ok ("### Forms" ++ nl
               ++ bullets before
               ++ "- " ++ word ++ " ()" ++ nl
               ++ bullets after
               ++ nl ++ nl).
Proof.
  intros this word before after. unfold renderForms.
  replace (isEmpty (before ++ Form.mk word [] :: after)) with false
    by (destruct before; reflexivity).
  destruct (inArray (language this) complexConjugationsLanguages).
  - rewrite foldM_groupForm_untagged.
    destruct (before ++ after)%list eqn:E; reflexivity.
  - rewrite bullets_from, bullets_app. f_equal.
    change (bullets (Form.mk word [] :: after))
      with (fold_left simpleBullet after (simpleBullet "" (Form.mk word []))).
    rewrite bullets_from.
    change (simpleBullet "" (Form.mk word []))
      with ("- " ++ word ++ " ()" ++ nl).
    now rewrite !append_assoc.
Qed.

Lemma findOr_in (p : string -> bool) (l : list string) (d : string) :
  In (findOr p l d) (d :: l).
Proof.
  unfold findOr. destruct (find p l) as [s|] eqn:E; [|now left].
  apply find_some in E. destruct (truthy s); [now right | now left].
Qed.

Lemma modify_total {V : Type} (k : string) (init : V) (f : V -> Result V)
  (o : JSObject.t V) :
  JSObject.inherited k = false ->
  (forall v, exists v', f v = Ok v') ->
  exists o', JSObject.modify k init f o = Ok o'.
Proof.
  intros Hk Hf. unfold JSObject.modify, JSObject.get.
  destruct (JSObject.getOwn k o) as [v|].
  - destruct (Hf v) as [v' ->]. cbn [bind]. eauto.
  - rewrite Hk. destruct (Hf init) as [v' ->]. cbn [bind]. eauto.
Qed.

(** The keys of the four levels of the grouping come from the vocabularies,
    none of which is a name inherited from [Object.prototype]. *)
Lemma vocabulary_not_inherited (k d : string) (vocabulary : list string) :
  In k (d :: vocabulary) ->
  forallb (fun k' => negb (JSObject.inherited k')) (d :: vocabulary) = true ->
  JSObject.inherited k = false.
Proof.
  intros Hin Hall. rewrite forallb_forall in Hall.
  specialize (Hall k Hin). now destruct (JSObject.inherited k).
Qed.

(** The grouping loop of the complex branch never throws. *)
Lemma groupForm_total (grouped : Grouped) (f : Form.t) :
  exists grouped', groupForm grouped f = Ok grouped'.
Proof.
  unfold groupForm.
  destruct (isEmpty (Form.tags f)); [eauto|].
  destruct (hasInvalidTag f); [eauto|].
  destruct (wordMentions (Form.word f) tenses); [eauto|].
  destruct (wordMentions (Form.word f) numbers); [eauto|].
  destruct (wordMentions (Form.word f) persons); [eauto|].
  apply modify_total.
  { unfold moodOf.
    destruct (find (fun nm => inArray nm (Form.tags f)) nonfiniteMoods)
      as [nm|]; [destruct (truthy nm)|];
      (eapply vocabulary_not_inherited; [apply findOr_in | reflexivity]). }
  intros tensesObj. apply modify_total.
  { eapply vocabulary_not_inherited; [apply findOr_in | reflexivity]. }
  intros numbersObj. apply modify_total.
  { eapply vocabulary_not_inherited; [apply findOr_in | reflexivity]. }
  intros personsObj. apply modify_total.
  { eapply vocabulary_not_inherited; [apply findOr_in | reflexivity]. }
  intros formsArr. eauto.
Qed.

Lemma renderForms_total (this : Dictionary.t) (forms : list Form.t) :
  exists md, renderForms this forms = Ok md.
Proof.
  unfold renderForms. destruct (isEmpty forms); [eauto|].
  destruct (inArray (language this) complexConjugationsLanguages); [|eauto].
  assert (H : forall grouped,
             exists grouped', foldM groupForm forms grouped = Ok grouped').
  { induction forms as [|f forms IH]; intros grouped; cbn [foldM]; [eauto|].
    destruct (groupForm_total grouped f) as [g' ->]. cbn [bind]. apply IH. }
  destruct (H JSObject.empty) as [g' ->]. cbn [bind]. eauto.
Qed.

(** Whenever a bucket of a finite mood is not skipped, its sub-heading
    reads "Tense: present", whatever its tense. *)
Lemma tenseHeading_present (mood tense : string) :
  negb (truthy tense) && negb (String.eqb mood "imperative") = false ->
  tenseHeading mood tense = "##### Tense: present" ++ nl.
Proof.
  unfold tenseHeading. intros H.
  destruct (truthy tense); [reflexivity|].
  destruct (String.eqb mood "imperative"); [reflexivity | discriminate].
Qed.

(** A bucket without tense under a finite mood other than the imperative
    writes nothing. *)
Lemma tenseStep_skips_untensed (mood : string) (st : RenderState)
  (numbersObj : NumbersObj) :
  String.eqb mood "imperative" = false ->
  tenseStep mood false st ("", numbersObj) = st.
Proof. intros H. unfold tenseStep. simpl. now rewrite H. Qed.

(** C1. The sub-heading of the bucket of the future tense: the form
    [hablare], tagged indicative, future, singular and first-person, is
    rendered under "Tense: present". *)
Theorem future_bucket_heading :
  renderForms es
    [Form.mk "hablare" ["indicative"; "future"; "singular"; "first-person"]]
  = Ok ("### Forms" ++ nl
        ++ "#### Mood: indicative" ++ nl
        ++ "##### Tense: present" ++ nl
        ++ "| Person & Number | Form |" ++ nl
        ++ "|---|---|" ++ nl
        ++ "| first-person singular | hablare |" ++ nl
        ++ nl ++ nl ++ nl).
Proof. vm_compute. reflexivity. Qed.

(** The names of the vocabularies are in lower case already, so the test
    on the word is a plain substring test. *)
Lemma wordMentions_case_sensitive (word : string) (vocabulary : list string) :
  Forall (fun t => toLowerCase t = t) vocabulary ->
  wordMentions word vocabulary = existsb (includes word) vocabulary.
Proof.
  unfold wordMentions. induction 1 as [|t l Ht _ IH]; simpl.
  - reflexivity.
  - now rewrite Ht, IH.
Qed.

(** C3. A word that contains the name of a tense in another letter case is
    kept: the form [Present] is grouped and rendered. *)
Theorem capitalised_tense_name_is_kept :
  skipped
    (Form.mk "Present" ["indicative"; "present"; "singular"; "first-person"])
  = false
  /\ renderForms es
       [Form.mk "Present"
          ["indicative"; "present"; "singular"; "first-person"]]
     = Ok ("### Forms" ++ nl
           ++ "#### Mood: indicative" ++ nl
           ++ "##### Tense: present" ++ nl
           ++ "| Person & Number | Form |" ++ nl
           ++ "|---|---|" ++ nl
           ++ "| first-person singular | Present |" ++ nl
           ++ nl ++ nl ++ nl).
Proof. split; vm_compute; reflexivity. Qed.

End Forms.

(** ** Favorites *)

Section Favorites.
Import Favorite.

(** When the arguments, as given, are the key of a stored entry, the store
    is left as it is. *)
Lemma addEntry_same_raw_key (localeCompare : string -> string -> Z)
  (language word markdown url : string) (st : Storage) :
  exist language word st = true ->
  addEntry localeCompare language word markdown url st = st.
Proof.
  unfold exist, addEntry. intros H.
  apply existsb_exists in H. destruct H as [fav [Hin Hk]].
  destruct (find (sameKey language word) (getEntries st)) eqn:E.
  - reflexivity.
  - apply (find_none _ _ E) in Hin. congruence.
Qed.

(** C9. With the entry (en, run) stored, adding (en, Run) stores a second
    entry with the key (en, run), whatever the collation. *)
Theorem addEntry_stores_formatted_key_twice :
  forall (localeCompare : string -> string -> Z) (markdown url : string),
    let stored := FavoriteEntry.mk "en" "run" markdown url in
    addEntry localeCompare "en" "Run" markdown url (Some [stored])
    = Some [stored; stored].
Proof.
  intros localeCompare markdown url. cbv zeta.
  assert (Hl : formatText "en" = "en") by (vm_compute; reflexivity).
  assert (Hw : formatText "Run" = "run") by (vm_compute; reflexivity).
  unfold addEntry. rewrite Hl, Hw. cbn.
  destruct (localeCompare "run" "run" <? 0)%Z; reflexivity.
Qed.

End Favorites.

(** ** Senses *)

Section Senses.
Import Dictionary.

Lemma forEachIdx_appends {A : Type} (body : string -> A -> nat -> string)
  (g : A -> nat -> string) (l : list A) :
  (forall md x i, body md x i = md ++ g x i) ->
  forall idx md, forEachIdx body l idx md = md ++ join "" (mapIdx g l idx).
Proof.
  intros Hb. induction l as [|x l IH]; intros idx md.
  - simpl. now rewrite append_nil_r.
  - cbn [forEachIdx mapIdx]. now rewrite IH, Hb, join_empty_cons, append_assoc.
Qed.

Lemma if_appends (b : bool) (md x : string) :
  (if b then md ++ x else md) = md ++ (if b then x else "").
Proof. destruct b; [reflexivity | now rewrite append_nil_r]. Qed.

Lemma quoteLine_appends (prefix md : string) (q : Quote.t) (i : nat) :
  quoteLine prefix md q i = md ++ quoteLine prefix "" q i.
Proof. reflexivity. Qed.

Lemma quotes_append (prefix md : string) (quotes : list Quote.t) :
  (if negb (isEmpty quotes)
   then forEachIdx (quoteLine prefix) quotes 0 md
   else md)
  = md ++ quoteLines prefix quotes.
Proof.
  destruct quotes as [|q quotes].
  - simpl. now rewrite append_nil_r.
  - cbn [isEmpty negb].
    apply (forEachIdx_appends (quoteLine prefix) (quoteLine prefix "")).
    intros; apply quoteLine_appends.
Qed.

(** The loop written in place in [subsenseBody] is the loop of
    [renderSubsenses]. *)
Lemma subsense_loop (indent len : nat) (l : list Sense.t) :
  forall i acc,
    (fix loop (l : list Sense.t) (i : nat) (acc : string) : string :=
       match l with
       | [] => acc
       | c :: r => loop r (i + 1) (subsenseBody indent len acc c i)
       end) l i acc
    = forEachIdx (subsenseBody indent len) l i acc.
Proof.
  induction l as [|c l IH]; intros i acc; [reflexivity|].
  cbn [forEachIdx]. apply IH.
Qed.

Lemma subsenseBody_eq (indent arrLen : nat) (subMd : string) (s : Sense.t)
  (idx : nat) :
  subsenseBody indent arrLen subMd s idx
  = subMd ++ subsenseItem indent s idx
          ++ (if (idx + 1 =? arrLen)%nat then nl else "").
Proof.
  destruct s as [d tg ex q sy an tr subs].
  unfold subsenseItem, subsenseDetails, renderSubsenses.
  cbn [subsenseBody Sense.definition Sense.synonyms Sense.antonyms
         Sense.examples Sense.quotes Sense.subsenses].
  rewrite subsense_loop.
  rewrite quotes_append, !if_appends.
  replace (if negb (isEmpty subs)
           then forEachIdx (subsenseBody (indent + 1) (List.length subs))
                  subs 0 ""
           else "")
    with (forEachIdx (subsenseBody (indent + 1) (List.length subs)) subs 0 "")
    by (destruct subs; reflexivity).
  now rewrite !append_assoc.
Qed.

Lemma last_newline {A : Type} (item : A -> nat -> string) (l : list A) :
  forall k,
    join ""
      (mapIdx (fun x i =>
                 item x i
                 ++ (if (i + 1 =? k + List.length l)%nat then nl else ""))
         l k)
    = join "" (mapIdx item l k) ++ (if isEmpty l then "" else nl).
Proof.
  induction l as [|x l IH]; intros k; [reflexivity|].
  cbn [mapIdx]. rewrite !join_empty_cons.
  destruct l as [|y l].
  - cbn [List.length mapIdx join isEmpty].
    replace (k + 1 =? k + 1)%nat with true by (symmetry; apply Nat.eqb_refl).
    now rewrite !append_nil_r.
  - replace (k + 1 =? k + List.length (x :: y :: l))%nat with false
      by (symmetry; apply Nat.eqb_neq; cbn [List.length]; lia).
    rewrite append_nil_r.
    replace (k + List.length (x :: y :: l))%nat
      with ((k + 1) + List.length (y :: l))%nat by (cbn [List.length]; lia).
    rewrite IH. cbn [isEmpty]. now rewrite append_assoc.
Qed.

Lemma renderSubsenses_closed (subsenses : list Sense.t) (indent : nat) :
  renderSubsenses subsenses indent
  = join "" (mapIdx (subsenseItem indent) subsenses 0)
    ++ (if isEmpty subsenses then "" else nl).
Proof.
  unfold renderSubsenses.
  rewrite (forEachIdx_appends _
             (fun s i => subsenseItem indent s i
                         ++ (if (i + 1 =? 0 + List.length subsenses)%nat
                             then nl else ""))).
  - cbn [append]. apply last_newline.
  - intros md x i. apply subsenseBody_eq.
Qed.

Lemma senseBody_eq (arrLen : nat) (md : string) (t : Sense.t) (j : nat) :
  senseBody arrLen md t j
  = md ++ senseItem t j ++ (if (j + 1 =? arrLen)%nat then nl ++ nl else "").
Proof.
  unfold senseBody, senseItem, senseDetails.
  rewrite quotes_append, !if_appends.
  replace (if negb (isEmpty (Sense.subsenses t))
           then renderSubsenses (Sense.subsenses t) 2 else "")
    with (renderSubsenses (Sense.subsenses t) 2)
    by (destruct (Sense.subsenses t); reflexivity).
  now rewrite !append_assoc.
Qed.

Lemma last_blank_lines {A : Type} (item : A -> nat -> string) (l : list A) :
  forall k,
    join ""
      (mapIdx (fun x i =>
                 item x i
                 ++ (if (i + 1 =? k + List.length l)%nat
                     then nl ++ nl else ""))
         l k)
    = join "" (mapIdx item l k) ++ (if isEmpty l then "" else nl ++ nl).
Proof.
  induction l as [|x l IH]; intros k; [reflexivity|].
  cbn [mapIdx]. rewrite !join_empty_cons.
  destruct l as [|y l].
  - cbn [List.length mapIdx join isEmpty].
    replace (k + 1 =? k + 1)%nat with true by (symmetry; apply Nat.eqb_refl).
    now rewrite !append_nil_r.
  - replace (k + 1 =? k + List.length (x :: y :: l))%nat with false
      by (symmetry; apply Nat.eqb_neq; cbn [List.length]; lia).
    rewrite append_nil_r.
    replace (k + List.length (x :: y :: l))%nat
      with ((k + 1) + List.length (y :: l))%nat by (cbn [List.length]; lia).
    rewrite IH. cbn [isEmpty]. now rewrite append_assoc.
Qed.

Lemma renderSenses_closed (senses : list Sense.t) :
  renderSenses senses
  = if isEmpty senses then ""
    else "### Senses" ++ nl
         ++ join "" (mapIdx senseItem senses 0) ++ nl ++ nl.
Proof.
  unfold renderSenses. destruct senses as [|t senses]; [reflexivity|].
  cbn [isEmpty].
  rewrite (forEachIdx_appends _
             (fun s j => senseItem s j
                         ++ (if (j + 1 =? 0 + List.length (t :: senses))%nat
                             then nl ++ nl else ""))).
  - rewrite last_blank_lines. cbn [isEmpty]. now rewrite !append_assoc.
  - intros md x i. apply senseBody_eq.
Qed.

(** C4. Each list of subsenses is numbered from 1 in input order, and the
    sense lines of its children are written one 4-space unit deeper: the
    text of a list rendered at [indent] is, for the element at position
    [idx], the line [indent] units deep with the number [idx + 1] and the
    definition, the lines of its fields, and its own subsenses rendered at
    [indent + 1]; the subsenses of a top-level sense are rendered at 2
    units.  A sense with two subsenses, the second having one subsense,
    renders as [1. def] at the margin, [1. sub1] and [2. sub2] after 8
    spaces, and [1. subsub1] after 12 spaces. *)
Theorem subsenses_numbered_and_indented :
  (forall (subsenses : list Sense.t) (indent : nat),
     renderSubsenses subsenses indent
     = join ""
         (mapIdx
            (fun s idx =>
               repeat "    " indent ++ ofNat (idx + 1) ++ ". "
               ++ Sense.definition s ++ nl
               ++ subsenseDetails (repeat "    " indent) s
               ++ renderSubsenses (Sense.subsenses s) (indent + 1))
            subsenses 0)
       ++ (if isEmpty subsenses then "" else nl))
  /\ (forall senses : list Sense.t,
        renderSenses senses
        = if isEmpty senses then ""
          else "### Senses" ++ nl
               ++ join ""
                    (mapIdx
                       (fun t j =>
                          ofNat (j + 1) ++ ". " ++ Sense.definition t ++ nl
                          ++ senseDetails t
                          ++ renderSubsenses (Sense.subsenses t) 2)
                       senses 0)
               ++ nl ++ nl)
  /\ (forall indent : nat,
        repeat "    " (indent + 1) = "    " ++ repeat "    " indent)
  /\ (forall def sub1 sub2 subsub1 : string,
        renderSenses
          [Sense.plain def
             [Sense.plain sub1 [];
              Sense.plain sub2 [Sense.plain subsub1 []]]]
        = "### Senses" ++ nl
          ++ "1. " ++ def ++ nl
          ++ "        1. " ++ sub1 ++ nl
          ++ "        2. " ++ sub2 ++ nl
          ++ "            1. " ++ subsub1 ++ nl
          ++ nl ++ nl ++ nl ++ nl).
Proof.
  split; [|split; [|split]].
  - intros. apply renderSubsenses_closed.
  - intros. apply renderSenses_closed.
  - intros indent. rewrite Nat.add_comm. reflexivity.
  - intros def sub1 sub2 subsub1.
    unfold nl. cbn.
    repeat (rewrite !append_assoc; cbn).
    reflexivity.
Qed.

End Senses.

(** ** Tables of the complex branch *)

Section FormTables.
Import Dictionary.

Lemma dedupFrom_spec (rows : list string) :
  forall seen,
    NoDup (dedupFrom seen rows)
    /\ (forall r, In r (dedupFrom seen rows) <-> In r rows /\ ~ In r seen).
Proof.
  induction rows as [|row rows IH]; intros seen; simpl.
  - split; [constructor | intros r; tauto].
  - destruct (inArray row seen) eqn:E.
    + destruct (IH seen) as [Hnd Hin]. split; [assumption|].
      apply inArray_In in E. intros r. rewrite (Hin r).
      split; [tauto | intros [[->|H] Hn]; tauto].
    + apply inArray_false in E.
      destruct (IH (seen ++ [row])%list) as [Hnd Hin]. split.
      * constructor; [|assumption].
        rewrite (Hin row), in_app_iff. simpl. tauto.
      * intros r. simpl. rewrite (Hin r), in_app_iff. simpl.
        destruct (string_dec row r) as [->|Hne]; tauto.
Qed.

Lemma emitRows (rows : list string) :
  forall md seen,
    fold_left emitRow rows (md, seen)
    = (md ++ join "" (dedupFrom seen rows), (seen ++ dedupFrom seen rows)%list).
Proof.
  induction rows as [|row rows IH]; intros md seen; simpl.
  - now rewrite append_nil_r, app_nil_r.
  - destruct (inArray row seen); [apply IH|].
    rewrite IH, join_empty_cons, append_assoc, <- app_assoc. reflexivity.
Qed.

Lemma fold_left_map {A B S : Type} (f : S -> B -> S) (g : A -> B)
  (l : list A) (st : S) :
  fold_left (fun st x => f st (g x)) l st = fold_left f (map g l) st.
Proof. revert st; induction l; intros; simpl; [reflexivity | apply IHl]. Qed.

Lemma fold_left_flat_map {A B S : Type} (f : S -> B -> S) (g : A -> list B)
  (l : list A) (st : S) :
  fold_left (fun st x => fold_left f (g x) st) l st
  = fold_left f (flat_map g l) st.
Proof.
  revert st; induction l as [|x l IH]; intros st; simpl; [reflexivity|].
  now rewrite fold_left_app, IH.
Qed.

Lemma fold_left_ext {A S : Type} (f g : S -> A -> S) (l : list A) (st : S) :
  (forall st x, f st x = g st x) -> fold_left f l st = fold_left g l st.
Proof.
  intros H. revert st; induction l as [|x l IH]; intros st; simpl;
    [reflexivity | now rewrite H, IH].
Qed.

(** The three nested loops of a tense bucket write the rows of the bucket
    through [emitRow], one after the other. *)
Lemma finiteRows_emit (st : RenderState) (numbersObj : NumbersObj) :
  finiteRows st numbersObj = fold_left emitRow (bucketRows numbersObj) st.
Proof.
  unfold finiteRows, bucketRows.
  rewrite <- fold_left_flat_map. apply fold_left_ext. intros st' np.
  rewrite <- fold_left_flat_map. apply fold_left_ext. intros st'' pf.
  apply fold_left_map.
Qed.

Lemma tenseStep_finite (mood md : string) (bucket : string * NumbersObj) :
  tenseStep mood false (md, []) bucket = (md ++ tenseTable mood bucket, []).
Proof.
  destruct bucket as [tense numbersObj]. unfold tenseStep, tenseTable.
  cbn [fst snd].
  destruct (negb (truthy tense) && negb (String.eqb mood "imperative")).
  - now rewrite append_nil_r.
  - rewrite finiteRows_emit, emitRows. cbn [fst].
    unfold distinctRows. now rewrite !append_assoc.
Qed.

Lemma tenseStep_resets (mood : string) (nonFinite : bool) (st : RenderState)
  (bucket : string * NumbersObj) :
  snd st = [] -> snd (tenseStep mood nonFinite st bucket) = [].
Proof.
  intros H. destruct bucket as [tense numbersObj]. unfold tenseStep.
  destruct nonFinite.
  - destruct (truthy tense && negb (String.eqb mood "imperative"));
      [assumption | reflexivity].
  - destruct (negb (truthy tense) && negb (String.eqb mood "imperative"));
      [assumption | reflexivity].
Qed.

Lemma moodStep_resets (st : RenderState) (group : string * TensesObj) :
  snd st = [] -> snd (moodStep st group) = [].
Proof.
  intros H. destruct group as [mood tensesObj]. unfold moodStep. cbn [snd].
  rewrite H.
  match goal with
  | |- snd (fold_left _ ?l (?md, [])) = [] => generalize md; generalize l
  end.
  intros l. induction l as [|b l IH]; intros md; [reflexivity|].
  cbn [fold_left].
  destruct (tenseStep mood (String.eqb mood "non-finite") (md, []) b)
    as [md' rows'] eqn:E.
  assert (Hr : rows' = []).
  { change rows' with (snd (md', rows')). rewrite <- E.
    now apply tenseStep_resets. }
  subst rows'. apply IH.
Qed.


(** The same row twice in the bucket (indicative, present) and once more in
    the bucket (indicative, future). *)
Example same_row_in_two_buckets :
  renderForms es
    [Form.mk "hablo" ["indicative"; "present"; "singular"; "first-person"];
     Form.mk "hablo" ["present"; "singular"; "first-person"];
     Form.mk "hablo" ["indicative"; "future"; "singular"; "first-person"]]
  = Ok ("### Forms" ++ nl
        ++ "#### Mood: indicative" ++ nl
        ++ "##### Tense: present" ++ nl
        ++ "| Person & Number | Form |" ++ nl
        ++ "|---|---|" ++ nl
        ++ "| first-person singular | hablo |" ++ nl
        ++ "##### Tense: present" ++ nl
        ++ "| Person & Number | Form |" ++ nl
        ++ "|---|---|" ++ nl
        ++ "| first-person singular | hablo |" ++ nl
        ++ nl ++ nl ++ nl).
Proof. vm_compute. reflexivity. Qed.

End FormTables.

(** ** The final replacement of doubled periods *)

Section Periods.
Import Dictionary.

Lemma collapse_pair (r : string) :
  replaceAll ".." "." (String "." (String "." r))
  = String "." (replaceAll ".." "." r).
Proof. reflexivity. Qed.

Lemma collapse_other (c : ascii) (r : string) :
  startsWith ".." (String c r) = false ->
  replaceAll ".." "." (String c r) = String c (replaceAll ".." "." r).
Proof.
  intros H. unfold replaceAll. cbn [replaceAllFrom]. now rewrite H.
Qed.

(** Induction along the scan of [replaceAll] for the pattern [..]. *)
Lemma scan_ind (P : string -> Prop) :
  P "" ->
  (forall r, P r -> P (String "." (String "." r))) ->
  (forall c r, startsWith ".." (String c r) = false -> P r -> P (String c r)) ->
  forall s, P s.
Proof.
  intros H0 H2 H1 s.
  assert (H : P s /\ forall c, P (String c s)); [|apply H].
  induction s as [|d r [IHr IHc]].
  - split; [assumption|]. intros c. apply H1; [|assumption].
    cbn [startsWith]. now rewrite andb_false_r.
  - split; [apply IHc|]. intros c.
    destruct (startsWith ".." (String c (String d r))) eqn:E.
    + cbn [startsWith] in E. apply andb_prop in E. destruct E as [Ec Ed].
      apply andb_prop in Ed. destruct Ed as [Ed _].
      apply Ascii.eqb_eq in Ec, Ed. subst c d. now apply H2.
    + apply H1; [assumption | apply IHc].
Qed.

Lemma includes_cons (c : ascii) (r needle : string) :
  includes (String c r) needle
  = startsWith needle (String c r) || includes r needle.
Proof. reflexivity. Qed.

Lemma startsWith_two_one (r : string) :
  startsWith ".." r = true -> startsWith "." r = true.
Proof.
  destruct r as [|c r]; cbn [startsWith]; [discriminate|].
  intros H. apply andb_prop in H. destruct H as [-> _]. reflexivity.
Qed.

Lemma collapse_first (s : string) :
  startsWith "." (replaceAll ".." "." s) = startsWith "." s.
Proof.
  destruct s as [|c r]; [reflexivity|].
  destruct (startsWith ".." (String c r)) eqn:E.
  - cbn [startsWith] in E. apply andb_prop in E. destruct E as [Ec Er].
    apply Ascii.eqb_eq in Ec. subst c.
    destruct r as [|d r]; [discriminate|].
    cbn [startsWith] in Er. apply andb_prop in Er. destruct Er as [Ed _].
    apply Ascii.eqb_eq in Ed. subst d. reflexivity.
  - now rewrite collapse_other.
Qed.

(** After the replacement, a doubled period is left exactly when the text
    had three periods in a row. *)
Lemma collapse_leaves (s : string) :
  includes (replaceAll ".." "." s) ".." = includes s "...".
Proof.
  induction s as [| r IH | c r Hc IH] using scan_ind.
  - reflexivity.
  - rewrite collapse_pair, !includes_cons, IH.
    change (startsWith ".." (String "." (replaceAll ".." "." r)))
      with (startsWith "." (replaceAll ".." "." r)).
    change (startsWith "..." (String "." (String "." r)))
      with (startsWith "." r).
    change (startsWith "..." (String "." r)) with (startsWith ".." r).
    rewrite collapse_first.
    destruct (startsWith "." r) eqn:E1; [reflexivity|].
    destruct (startsWith ".." r) eqn:E2; [|reflexivity].
    apply startsWith_two_one in E2. congruence.
  - rewrite (collapse_other _ _ Hc), !includes_cons, IH.
    change (startsWith ".." (String c (replaceAll ".." "." r)))
      with (Ascii.eqb "." c && startsWith "." (replaceAll ".." "." r)).
    change (startsWith "..." (String c r))
      with (Ascii.eqb "." c && startsWith ".." r).
    change (startsWith ".." (String c r))
      with (Ascii.eqb "." c && startsWith "." r) in Hc.
    rewrite collapse_first, Hc.
    destruct (Ascii.eqb "." c); [|reflexivity].
    cbn [andb] in Hc |- *.
    destruct (startsWith ".." r) eqn:E2; [|reflexivity].
    apply startsWith_two_one in E2. congruence.
Qed.

(** C7, as stated, fails: a definition that ends with an ellipsis is
    returned with a doubled period. *)
Lemma ellipsis_leaves_doubled_period :
  exists md,
    snd (renderMarkdown (Dictionary.new "en" "wait") waitEntry) = Ok md
    /\ includes md "hold on.." = true
    /\ includes md ".." = true.
Proof.
  eexists. split; [vm_compute; reflexivity|].
  split; vm_compute; reflexivity.
Qed.

(** C7, amended. The returned text is the rendered text in which every
    occurrence of [..] found by one scan from left to right is replaced by
    a single period; it contains a doubled period exactly when the rendered
    text contains three periods in a row. *)
Theorem doubled_periods_collapsed_in_one_pass :
  forall (this : Dictionary.t) (entry : DictionaryEntry.t) (md : string),
    snd (renderMarkdown this entry) = Ok md ->
    exists raw,
      rawMarkdown (fst (renderMarkdown this entry)) entry = Ok raw
      /\ md = replaceAll ".." "." raw
      /\ includes md ".." = includes raw "...".
Proof.
  intros this entry md H. unfold renderMarkdown in *. cbn [fst snd] in *.
  destruct (rawMarkdown _ entry) as [raw|]; [|discriminate].
  cbn in H. injection H as <-. exists raw.
  split; [reflexivity|]. split; [reflexivity | apply collapse_leaves].
Qed.

Lemma doubled_periods_collapsed_witness :
  snd (renderMarkdown (Dictionary.new "en" "run") runEntry) = Ok runMarkdown
  /\ exists raw,
       rawMarkdown
         (fst (renderMarkdown (Dictionary.new "en" "run") runEntry)) runEntry
       = Ok raw
       /\ runMarkdown = replaceAll ".." "." raw
       /\ includes runMarkdown ".." = includes raw "...".
Proof.
  split; [vm_compute; reflexivity|].
  apply (doubled_periods_collapsed_in_one_pass
           (Dictionary.new "en" "run") runEntry runMarkdown).
  vm_compute; reflexivity.
Defined.

End Periods.

(** ** Grouping in a plain object *)

Lemma bind_Ok {A : Type} (r : Result A) : (a <- r ;; Ok a) = r.
Proof. destruct r; reflexivity. Qed.

Lemma foldM_map {A B C : Type} (f : A -> C -> Result A) (g : B -> C)
  (l : list B) (a : A) :
  foldM (fun a x => f a (g x)) l a = foldM f (map g l) a.
Proof.
  revert a; induction l as [|x l IH]; intros a; simpl; [reflexivity|].
  destruct (f a (g x)); simpl; [apply IH | reflexivity].
Qed.

Lemma foldM_flat_map {A B C : Type} (f : A -> C -> Result A)
  (g : B -> list C) (l : list B) (a : A) :
  foldM (fun a x => foldM f (g x) a) l a = foldM f (flat_map g l) a.
Proof.
  revert a; induction l as [|x l IH]; intros a; simpl; [reflexivity|].
  rewrite foldM_app. destruct (foldM f (g x) a); simpl;
    [apply IH | reflexivity].
Qed.

Lemma foldM_ext {A B : Type} (f g : A -> B -> Result A) (l : list B) (a : A) :
  (forall a x, f a x = g a x) -> foldM f l a = foldM g l a.
Proof.
  intros H. revert a; induction l as [|x l IH]; intros a; simpl;
    [reflexivity|].
  rewrite H. destruct (g a x); simpl; [apply IH | reflexivity].
Qed.

Lemma inArray_cons (k k' : string) (l : list string) :
  inArray k (k' :: l) = String.eqb k k' || inArray k l.
Proof. reflexivity. Qed.

(** An object without array-index keys is enumerated in creation order. *)
Lemma entries_creation_order {V : Type} (o : JSObject.t V) :
  Forall (fun kv => JSObject.isArrayIndex (fst kv) = false) o ->
  JSObject.entries o = o.
Proof.
  intros H. unfold JSObject.entries.
  assert (Hi : JSObject.indexed o = []).
  { induction H as [|kv o Hkv _ IH]; [reflexivity|].
    cbn [JSObject.indexed]. unfold JSObject.isArrayIndex in Hkv.
    destruct (JSObject.arrayIndex (fst kv)); [discriminate | exact IH]. }
  rewrite Hi. clear Hi. cbn [map app].
  induction H as [|kv o Hkv _ IH]; [reflexivity|].
  cbn [filter]. rewrite Hkv. cbn [negb]. now rewrite IH.
Qed.

Section Grouping.
Context {X V : Type}.

Lemma members_snoc (k k' : string) (x : X) (items : list (string * X)) :
  members k' (items ++ [(k, x)])
  = (members k' items ++ (if String.eqb k k' then [x] else []))%list.
Proof.
  unfold members. rewrite filter_app, map_app. cbn [filter fst].
  destruct (String.eqb k k'); reflexivity.
Qed.

Lemma firstsFrom_snoc (k : string) (x : X) (items : list (string * X)) :
  forall seen,
    firstsFrom seen (items ++ [(k, x)])
    = (firstsFrom seen items
       ++ (if inArray k seen || inArray k (map fst items)
           then [] else [(k, x)]))%list.
Proof.
  induction items as [|[k1 x1] items IH]; intros seen.
  - cbn [app firstsFrom fst map]. rewrite orb_false_r.
    destruct (inArray k seen); reflexivity.
  - cbn [app firstsFrom fst map]. rewrite inArray_cons.
    destruct (inArray k1 seen) eqn:E1.
    + rewrite IH. f_equal.
      destruct (String.eqb_spec k k1) as [->|Hne]; [|reflexivity].
      now rewrite E1.
    + rewrite IH. cbn [app]. rewrite inArray_cons.
      destruct (String.eqb k k1), (inArray k seen),
        (inArray k (map fst items)); reflexivity.
Qed.

Lemma firstsFrom_keys (items : list (string * X)) :
  forall seen,
    NoDup (map fst (firstsFrom seen items))
    /\ (forall k, In k (map fst (firstsFrom seen items))
                  <-> In k (map fst items) /\ ~ In k seen).
Proof.
  induction items as [|[k1 x1] items IH]; intros seen; cbn [firstsFrom map fst].
  - split; [constructor | intros k; simpl; tauto].
  - destruct (inArray k1 seen) eqn:E.
    + destruct (IH seen) as [Hnd Hin]. split; [assumption|].
      apply inArray_In in E. intros k. rewrite (Hin k). simpl.
      split; [tauto | intros [[->|H] Hn]; tauto].
    + apply inArray_false in E.
      destruct (IH (k1 :: seen)) as [Hnd Hin]. split.
      * cbn [map fst]. constructor; [|assumption].
        rewrite (Hin k1). simpl. tauto.
      * intros k. cbn [map fst]. simpl. rewrite (Hin k). simpl.
        destruct (string_dec k1 k) as [->|Hne]; tauto.
Qed.

Lemma inArray_firsts (k : string) (items : list (string * X)) :
  inArray k (map fst (firsts items)) = inArray k (map fst items).
Proof.
  destruct (firstsFrom_keys items []) as [_ Hin]. unfold firsts.
  destruct (inArray k (map fst items)) eqn:E.
  - apply inArray_In. apply inArray_In in E. apply Hin. simpl. tauto.
  - apply inArray_false. apply inArray_false in E. rewrite (Hin k). tauto.
Qed.

Lemma members_absent (k : string) (items : list (string * X)) :
  inArray k (map fst items) = false -> members k items = [].
Proof.
  intros H. unfold members. induction items as [|[k1 x1] items IH];
    [reflexivity|].
  cbn [map fst] in H. rewrite inArray_cons in H.
  apply orb_false_elim in H. destruct H as [H1 H2].
  cbn [filter fst]. rewrite String.eqb_sym, H1. now apply IH.
Qed.

Variable init : X -> V.
Variable add : X -> V -> V.

Lemma groupStep_ordinary (o : JSObject.t V) (k : string) (x : X) :
  JSObject.ordinaryKey k = true ->
  groupStep init add o (k, x) = Ok (upsert init add k x o).
Proof.
  intros H. unfold groupStep, JSObject.modify, JSObject.get, upsert.
  cbn [fst snd]. destruct (JSObject.getOwn k o); [reflexivity|].
  unfold JSObject.ordinaryKey in H. apply andb_prop in H.
  destruct H as [_ H]. destruct (JSObject.inherited k);
    [discriminate | reflexivity].
Qed.

Lemma upsert_cons (k : string) (x : X) (k' : string) (v : V)
  (o : JSObject.t V) :
  upsert init add k x ((k', v) :: o)
  = if String.eqb k k' then (k, add x v) :: o else (k', v) :: upsert init add k x o.
Proof.
  unfold upsert. cbn [JSObject.getOwn JSObject.set].
  destruct (String.eqb k k'); [reflexivity|].
  destruct (JSObject.getOwn k o); reflexivity.
Qed.

Lemma groupOf_other (k : string) (x : X) (items : list (string * X))
  (kx0 : string * X) :
  String.eqb k (fst kx0) = false ->
  groupOf init add (items ++ [(k, x)]) kx0 = groupOf init add items kx0.
Proof.
  intros H. unfold groupOf. rewrite members_snoc, H. now rewrite app_nil_r.
Qed.

Lemma groupOf_same (k : string) (x x0 : X) (items : list (string * X)) :
  groupOf init add (items ++ [(k, x)]) (k, x0)
  = (k, add x (snd (groupOf init add items (k, x0)))).
Proof.
  unfold groupOf. cbn [fst snd].
  now rewrite members_snoc, String.eqb_refl, fold_left_app.
Qed.

Lemma upsert_groups (k : string) (x : X) (items F : list (string * X)) :
  NoDup (map fst F) ->
  upsert init add k x (map (groupOf init add items) F)
  = (map (groupOf init add (items ++ [(k, x)])) F
     ++ (if inArray k (map fst F) then [] else [(k, add x (init x))]))%list.
Proof.
  induction F as [|[k' x0] F IH]; intros Hnd; [reflexivity|].
  cbn [map fst]. change (groupOf init add items (k', x0))
    with (k', snd (groupOf init add items (k', x0))) at 1.
  rewrite upsert_cons, inArray_cons.
  cbn [map fst] in Hnd. apply NoDup_cons_iff in Hnd. destruct Hnd as [Hk Hnd].
  destruct (String.eqb_spec k k') as [<-|Hne].
  - rewrite groupOf_same. cbn [orb app]. rewrite app_nil_r. f_equal.
    apply map_ext_in. intros kx0 Hin. symmetry. apply groupOf_other.
    apply String.eqb_neq. intros ->. apply Hk. now apply in_map.
  - cbn [orb]. rewrite (IH Hnd). cbn [app]. f_equal.
    symmetry. apply groupOf_other. cbn [fst]. now apply String.eqb_neq.
Qed.

Lemma firstEncounter_snoc (k : string) (x : X) (items : list (string * X)) :
  upsert init add k x (firstEncounter init add items) = firstEncounter init add (items ++ [(k, x)]).
Proof.
  unfold firstEncounter, firsts.
  rewrite upsert_groups by apply firstsFrom_keys.
  fold (firsts items). rewrite inArray_firsts, firstsFrom_snoc, map_app.
  cbn [inArray existsb orb]. f_equal.
  destruct (inArray k (map fst items)) eqn:E; [reflexivity|].
  cbn [map]. unfold groupOf. cbn [fst snd].
  rewrite members_snoc, String.eqb_refl, (members_absent _ _ E).
  reflexivity.
Qed.

(** With ordinary keys the grouping loop does not throw and builds the
    groups in the order their keys are first met. *)
Lemma grouping_first_encounter (items : list (string * X)) :
  Forall (fun kx => JSObject.ordinaryKey (fst kx) = true) items ->
  foldM (groupStep init add) items JSObject.empty = Ok (firstEncounter init add items).
Proof.
  induction items as [|[k x] items IH] using rev_ind; intros H.
  - reflexivity.
  - apply Forall_app in H. destruct H as [H1 H2].
    rewrite foldM_app, (IH H1). cbn [bind foldM].
    rewrite groupStep_ordinary by (now inversion H2).
    cbn [bind]. now rewrite firstEncounter_snoc.
Qed.

Lemma firstEncounter_entries (items : list (string * X)) :
  Forall (fun kx => JSObject.ordinaryKey (fst kx) = true) items ->
  JSObject.entries (firstEncounter init add items) = firstEncounter init add items.
Proof.
  intros H. apply entries_creation_order. unfold firstEncounter.
  apply Forall_forall. intros kv Hin. apply in_map_iff in Hin.
  destruct Hin as [kx0 [<- Hin]]. cbn [groupOf fst].
  assert (Hk : In (fst kx0) (map fst items)).
  { destruct (firstsFrom_keys items []) as [_ Hkeys].
    apply Hkeys. now apply in_map. }
  apply in_map_iff in Hk. destruct Hk as [kx [Hfst Hkx]].
  rewrite Forall_forall in H. specialize (H kx Hkx). rewrite Hfst in H.
  unfold JSObject.ordinaryKey in H. apply andb_prop in H.
  destruct H as [H _]. now destruct (JSObject.isArrayIndex (fst kx0)).
Qed.

End Grouping.

(** ** Grouping by part of speech *)

Section PartsOfSpeech.
Import Dictionary.

Lemma groupEntry_step (o : JSObject.t Group) (e : LanguageEntry.t) :
  groupEntry o e = groupStep newGroup pushEntry o (keyed e).
Proof. reflexivity. Qed.

Lemma fold_pushEntry (sharing : list LanguageEntry.t) :
  forall g,
    fold_left (fun g e => pushEntry e g) sharing g
    = mkGroup (g_language g) (partOfSpeech g)
        (pronunciations g ++ flat_map LanguageEntry.pronunciations sharing)%list
        (forms g ++ flat_map LanguageEntry.forms sharing)%list
        (senses g ++ flat_map LanguageEntry.senses sharing)%list.
Proof.
  induction sharing as [|e sharing IH]; intros g.
  - cbn [fold_left flat_map]. rewrite !app_nil_r. now destruct g.
  - cbn [fold_left flat_map]. rewrite IH.
    cbn [pushEntry g_language partOfSpeech pronunciations forms senses].
    now rewrite <- !app_assoc.
Qed.

Lemma values_firstEncounter (entries : list LanguageEntry.t) :
  map snd (firstEncounter newGroup pushEntry (map keyed entries))
  = firstEncounterGroups entries.
Proof.
  unfold firstEncounter, firstEncounterGroups. rewrite map_map.
  apply map_ext. intros kx0. unfold groupOf. cbn [snd].
  now rewrite fold_pushEntry.
Qed.

Lemma keyed_ordinary (entries : list LanguageEntry.t) :
  Forall (fun e => JSObject.ordinaryKey (LanguageEntry.partOfSpeech e) = true)
    entries ->
  Forall (fun kx : string * LanguageEntry.t =>
            JSObject.ordinaryKey (fst kx) = true) (map keyed entries).
Proof.
  intros H. apply Forall_map. exact H.
Qed.

Lemma groupEntries_first_encounter (entries : list LanguageEntry.t) :
  Forall (fun e => JSObject.ordinaryKey (LanguageEntry.partOfSpeech e) = true)
    entries ->
  exists groupedEntries,
    foldM groupEntry entries JSObject.empty = Ok groupedEntries
    /\ JSObject.values groupedEntries = firstEncounterGroups entries.
Proof.
  intros H. apply keyed_ordinary in H.
  exists (firstEncounter newGroup pushEntry (map keyed entries)). split.
  - transitivity
      (foldM (groupStep newGroup pushEntry) (map keyed entries)
         JSObject.empty).
    + exact (foldM_map (groupStep newGroup pushEntry) keyed entries
               JSObject.empty).
    + exact (grouping_first_encounter newGroup pushEntry _ H).
  - unfold JSObject.values.
    rewrite (firstEncounter_entries newGroup pushEntry _ H).
    apply values_firstEncounter.
Qed.

(** C2, as stated, fails: tags that are array indices are enumerated in
    ascending numeric order, whatever the order they were met in; and a tag
    that names an inherited property makes the grouping loop throw. *)
Lemma numeric_tags_are_reordered :
  map partOfSpeech (firstEncounterGroups (DictionaryEntry.entries numberedEntry))
  = ["2"; "1"]
  /\ snd (renderMarkdown (Dictionary.new "en" "w")
            (DictionaryEntry.mk "w"
               [LanguageEntry.mk english "constructor" [] [] []] someSource))
     = TypeError
  /\ (exists groupedEntries,
        foldM groupEntry (DictionaryEntry.entries numberedEntry) JSObject.empty
        = Ok groupedEntries
        /\ map partOfSpeech (JSObject.values groupedEntries) = ["1"; "2"])
  /\ snd (renderMarkdown (Dictionary.new "en" "w") numberedEntry)
     = Ok ("# W" ++ nl
           ++ "Source: [https://example.com/w](https://example.com/w)"
           ++ nl ++ nl
           ++ "## 1" ++ nl
           ++ "### Senses" ++ nl ++ "1. met second" ++ nl ++ nl ++ nl
           ++ "## 2" ++ nl
           ++ "### Senses" ++ nl ++ "1. met first" ++ nl ++ nl ++ nl).
Proof.
  split; [reflexivity|]. split; [reflexivity|]. split.
  - eexists. split; reflexivity.
  - vm_compute. reflexivity.
Qed.

(** C2, amended. When no part-of-speech tag is an array index or a name
    inherited from [Object.prototype], the grouping loop does not throw,
    the groups are enumerated in the order their tags are first met, each
    group holds the pronunciations, forms and senses of all the entries with
    its tag, concatenated in order, and the sections are written from these
    groups in that order. *)
Theorem grouping_by_part_of_speech :
  forall (this : Dictionary.t) (entry : DictionaryEntry.t),
    Forall
      (fun e => JSObject.ordinaryKey (LanguageEntry.partOfSpeech e) = true)
      (DictionaryEntry.entries entry) ->
    exists groupedEntries,
      foldM groupEntry (DictionaryEntry.entries entry) JSObject.empty
      = Ok groupedEntries
      /\ JSObject.values groupedEntries
         = firstEncounterGroups (DictionaryEntry.entries entry)
      /\ rawMarkdown this entry
         = foldM (renderSection this)
             (firstEncounterGroups (DictionaryEntry.entries entry))
             (header (DictionaryEntry.word entry)
                (replaceAll " " "%20"
                   (Source.url (DictionaryEntry.source entry)))).
Proof.
  intros this entry H.
  destruct (groupEntries_first_encounter _ H) as [o [Ho Hv]].
  exists o. split; [assumption|]. split; [assumption|].
  unfold rawMarkdown. rewrite Ho. cbn [bind]. now rewrite Hv.
Qed.

(** The entries (noun, A), (verb, B), (noun, C), for any contents: the noun
    group comes first and holds the lists of A followed by those of C. *)
Example noun_verb_noun :
  forall (la lb lc : Language.t)
    (pa pb pc : list Pronunciation.t) (fa fb fc : list Form.t)
    (sa sb sc : list Sense.t),
  exists groupedEntries,
    foldM groupEntry
      [LanguageEntry.mk la "noun" pa fa sa;
       LanguageEntry.mk lb "verb" pb fb sb;
       LanguageEntry.mk lc "noun" pc fc sc] JSObject.empty
    = Ok groupedEntries
    /\ JSObject.values groupedEntries
       = [mkGroup la "noun" (pa ++ pc)%list (fa ++ fc)%list (sa ++ sc)%list;
          mkGroup lb "verb" pb fb sb].
Proof. intros. eexists. split; reflexivity. Qed.

Lemma grouping_by_part_of_speech_witness :
  firstEncounterGroups (DictionaryEntry.entries nounVerbNoun)
  = [mkGroup english "noun" [] []
       [Sense.plain "a race" []; Sense.plain "a route" []];
     mkGroup english "verb" [] [] [Sense.plain "move fast" []]]
  /\ snd (renderMarkdown (Dictionary.new "en" "run") nounVerbNoun)
     = Ok ("# Run" ++ nl
           ++ "Source: [https://example.com/w](https://example.com/w)"
           ++ nl ++ nl
           ++ "## Noun" ++ nl
           ++ "### Senses" ++ nl
           ++ "1. a race" ++ nl ++ "2. a route" ++ nl ++ nl ++ nl
           ++ "## Verb" ++ nl
           ++ "### Senses" ++ nl
           ++ "1. move fast" ++ nl ++ nl ++ nl)
  /\ exists groupedEntries,
       foldM groupEntry (DictionaryEntry.entries nounVerbNoun) JSObject.empty
       = Ok groupedEntries
       /\ JSObject.values groupedEntries
          = firstEncounterGroups (DictionaryEntry.entries nounVerbNoun)
       /\ rawMarkdown (Dictionary.new "en" "run") nounVerbNoun
          = foldM (renderSection (Dictionary.new "en" "run"))
              (firstEncounterGroups (DictionaryEntry.entries nounVerbNoun))
              (header (DictionaryEntry.word nounVerbNoun)
                 (replaceAll " " "%20"
                    (Source.url (DictionaryEntry.source nounVerbNoun)))).
Proof.
  split; [reflexivity|].
  split; [vm_compute; reflexivity|].
  apply (grouping_by_part_of_speech (Dictionary.new "en" "run") nounVerbNoun).
  repeat constructor.
Defined.

End PartsOfSpeech.

(** ** The pronunciation table *)

Section Pronunciations.
Import Dictionary.

Lemma groupPronunciation_steps (o : JSObject.t PronGroup)
  (p : Pronunciation.t) :
  groupPronunciation o p = foldM (groupStep newPronGroup pushPron) (taggingsOf p) o.
Proof.
  unfold groupPronunciation, taggingsOf.
  destruct (Pronunciation.tags p) as [|tag tags'].
  - cbn [isEmpty negb map foldM]. now rewrite bind_Ok.
  - cbn [isEmpty negb].
    exact (foldM_map (groupStep newPronGroup pushPron) (fun tag => (tag, p))
             (tag :: tags') o).
Qed.

Lemma fold_pushPron (sharing : list Pronunciation.t) :
  forall g,
    fold_left (fun g p => pushPron p g) sharing g
    = mkPronGroup (type g) (text g ++ map Pronunciation.text sharing)%list.
Proof.
  induction sharing as [|p sharing IH]; intros g.
  - cbn [fold_left map]. rewrite app_nil_r. now destruct g.
  - cbn [fold_left map]. rewrite IH. cbn [pushPron type text].
    now rewrite <- app_assoc.
Qed.

Lemma pronunciationRow_appends (md : string) (rg : string * PronGroup) :
  pronunciationRow md rg = md ++ pronunciationRow "" rg.
Proof. destruct rg. reflexivity. Qed.

Lemma pronunciationRow_group (pronunciations : list Pronunciation.t)
  (first : string * Pronunciation.t) :
  pronunciationRow ""
    (groupOf newPronGroup pushPron (taggings pronunciations) first)
  = dialectRow pronunciations first.
Proof.
  unfold groupOf, pronunciationRow, dialectRow.
  rewrite fold_pushPron. reflexivity.
Qed.

Lemma taggings_ordinary (pronunciations : list Pronunciation.t) :
  Forall (fun p => Forall (fun tag => JSObject.ordinaryKey tag = true)
                     (Pronunciation.tags p)) pronunciations ->
  Forall (fun kx : string * Pronunciation.t =>
            JSObject.ordinaryKey (fst kx) = true) (taggings pronunciations).
Proof.
  intros H. unfold taggings. apply Forall_flat_map.
  eapply Forall_impl; [|exact H]. intros p Hp. unfold taggingsOf.
  apply Forall_map. cbn [fst]. cbv beta in Hp.
  destruct (Pronunciation.tags p) as [|tag tags'] eqn:E.
  - cbn [isEmpty]. repeat constructor.
  - cbn [isEmpty]. exact Hp.
Qed.

Lemma taggingsOf_not_empty (p : Pronunciation.t) : taggingsOf p <> [].
Proof.
  unfold taggingsOf. destruct (Pronunciation.tags p); discriminate.
Qed.

Lemma groupPronunciations_first_encounter
  (pronunciations : list Pronunciation.t) :
  Forall (fun p => Forall (fun tag => JSObject.ordinaryKey tag = true)
                     (Pronunciation.tags p)) pronunciations ->
  foldM groupPronunciation pronunciations JSObject.empty
  = Ok (firstEncounter newPronGroup pushPron (taggings pronunciations)).
Proof.
  intros H. apply taggings_ordinary in H.
  transitivity
    (foldM (groupStep newPronGroup pushPron) (taggings pronunciations)
       JSObject.empty).
  - rewrite (foldM_ext groupPronunciation
               (fun o p => foldM (groupStep newPronGroup pushPron)
                             (taggingsOf p) o))
      by apply groupPronunciation_steps.
    apply foldM_flat_map.
  - exact (grouping_first_encounter newPronGroup pushPron _ H).
Qed.

(** C5, as stated, fails: tags that are array indices are enumerated in
    ascending numeric order, so the row of the tag met second comes first;
    and a tag that names an inherited property makes the loop throw. *)
Lemma numeric_dialects_are_reordered :
  renderPronunciations [Pronunciation.mk "IPA" "x" ["constructor"]]
  = TypeError
  /\ renderPronunciations numberedDialects
  = Ok ("| Dialect | Pronunciation | Phonetic System | " ++ nl
        ++ "|---|---|---|" ++ nl
        ++ "| 1 | met second | IPA |" ++ nl
        ++ "| 2 | met first | IPA |" ++ nl
        ++ nl ++ nl)
  /\ pronunciationTable numberedDialects
     = "| Dialect | Pronunciation | Phonetic System | " ++ nl
       ++ "|---|---|---|" ++ nl
       ++ "| 2 | met first | IPA |" ++ nl
       ++ "| 1 | met second | IPA |" ++ nl
       ++ nl ++ nl
  /\ renderPronunciations numberedDialects
     <> Ok (pronunciationTable numberedDialects).
Proof.
  split; [reflexivity|].
  split; [vm_compute; reflexivity|].
  split; [vm_compute; reflexivity|].
  vm_compute. discriminate.
Qed.

(** C5, amended. When no dialect tag is an array index or a name inherited
    from [Object.prototype], a non-empty array of pronunciations renders,
    without exception, to the table with one row per distinct tag in the
    order the tags are first met; the row of a tag lists the texts of all
    the pronunciations carrying the tag, joined with a comma and a space,
    and the type of the first of them.  A pronunciation contributes its
    text to the row of each of its tags, and to the row of the sentinel [-]
    when it has no tag. *)
Theorem pronunciation_rows_by_dialect :
  forall pronunciations : list Pronunciation.t,
    Forall (fun p => Forall (fun tag => JSObject.ordinaryKey tag = true)
                       (Pronunciation.tags p)) pronunciations ->
    renderPronunciations pronunciations
    = Ok (if isEmpty pronunciations then ""
          else pronunciationTable pronunciations)
    /\ NoDup (map fst (firsts (taggings pronunciations)))
    /\ (forall p tag,
          In p pronunciations ->
          In tag (Pronunciation.tags p) ->
          In tag (map fst (firsts (taggings pronunciations)))
          /\ In (Pronunciation.text p)
               (map Pronunciation.text
                  (members tag (taggings pronunciations))))
    /\ (forall p,
          In p pronunciations ->
          Pronunciation.tags p = [] ->
          In "-" (map fst (firsts (taggings pronunciations)))
          /\ In (Pronunciation.text p)
               (map Pronunciation.text
                  (members "-" (taggings pronunciations)))).
Proof.
  intros pronunciations H.
  assert (Hkeys : forall k, In k (map fst (firsts (taggings pronunciations)))
                            <-> In k (map fst (taggings pronunciations))).
  { intros k. destruct (firstsFrom_keys (taggings pronunciations) [])
      as [_ Hin]. unfold firsts. rewrite (Hin k). simpl. tauto. }
  assert (Hmem : forall p tag,
             In p pronunciations -> In (tag, p) (taggingsOf p) ->
             In tag (map fst (firsts (taggings pronunciations)))
             /\ In (Pronunciation.text p)
                  (map Pronunciation.text
                     (members tag (taggings pronunciations)))).
  { intros p tag Hp Ht.
    assert (Hin : In (tag, p) (taggings pronunciations)).
    { unfold taggings. apply in_flat_map. now exists p. }
    split.
    - apply Hkeys. apply in_map_iff. now exists (tag, p).
    - apply in_map. unfold members. apply in_map_iff. exists (tag, p).
      split; [reflexivity|]. apply filter_In. split; [assumption|].
      apply String.eqb_refl. }
  split; [|split; [|split]].
  - destruct pronunciations as [|p0 rest] eqn:E; [reflexivity|].
    rewrite <- E in *. unfold renderPronunciations.
    replace (isEmpty pronunciations) with false by (now rewrite E).
    rewrite (groupPronunciations_first_encounter _ H). cbn [bind].
    rewrite (firstEncounter_entries newPronGroup pushPron _
               (taggings_ordinary _ H)).
    assert (Hne : isEmpty (firstEncounter newPronGroup pushPron
                             (taggings pronunciations)) = false).
    { unfold firstEncounter, firsts, taggings. rewrite E.
      cbn [flat_map]. pose proof (taggingsOf_not_empty p0) as Hp0.
      destruct (taggingsOf p0); [congruence | reflexivity]. }
    rewrite Hne.
    rewrite (fold_left_appends pronunciationRow (pronunciationRow ""))
      by apply pronunciationRow_appends.
    unfold firstEncounter, pronunciationTable. rewrite map_map.
    rewrite (map_ext _ _ (pronunciationRow_group pronunciations)).
    now rewrite !append_assoc.
  - apply firstsFrom_keys.
  - intros p tag Hp Ht. apply Hmem; [assumption|].
    unfold taggingsOf. destruct (Pronunciation.tags p) as [|t ts];
      [contradiction|].
    cbn [isEmpty]. exact (in_map (fun tag => (tag, p)) _ _ Ht).
  - intros p Hp Ht. apply Hmem; [assumption|].
    unfold taggingsOf. rewrite Ht. cbn. now left.
Qed.

Lemma pronunciation_rows_by_dialect_witness :
  Forall (fun p => Forall (fun tag => JSObject.ordinaryKey tag = true)
                     (Pronunciation.tags p)) twoDialects
  /\ renderPronunciations twoDialects
     = Ok ("| Dialect | Pronunciation | Phonetic System | " ++ nl
           ++ "|---|---|---|" ++ nl
           ++ "| UK | fu: | IPA |" ++ nl
           ++ "| US | fu:, foo | IPA |" ++ nl
           ++ "| - | fu | X-SAMPA |" ++ nl
           ++ nl ++ nl)
  /\ NoDup (map fst (firsts (taggings twoDialects)))
  /\ In "fu:"
       (map Pronunciation.text (members "UK" (taggings twoDialects)))
  /\ In "fu:"
       (map Pronunciation.text (members "US" (taggings twoDialects)))
  /\ In "fu"
       (map Pronunciation.text (members "-" (taggings twoDialects))).
Proof.
  assert (H : Forall (fun p => Forall (fun tag => JSObject.ordinaryKey tag = true)
                                 (Pronunciation.tags p)) twoDialects)
    by (repeat constructor).
  destruct (pronunciation_rows_by_dialect twoDialects H)
    as [Htable [Hnodup [Htagged Huntagged]]].
  split; [exact H|].
  split; [rewrite Htable; vm_compute; reflexivity|].
  split; [exact Hnodup|].
  split; [|split].
  - apply (Htagged (Pronunciation.mk "IPA" "fu:" ["UK"; "US"]) "UK");
      simpl; tauto.
  - apply (Htagged (Pronunciation.mk "IPA" "fu:" ["UK"; "US"]) "US");
      simpl; tauto.
  - apply (Huntagged (Pronunciation.mk "X-SAMPA" "fu" []));
      [simpl; tauto | reflexivity].
Defined.

End Pronunciations.

(** * Further properties of the favorites store *)

Section FavoriteStore.
Import Favorite.

Lemma exist_find (language word : string) (st : Storage) :
  exist language word st = false ->
  find (sameKey language word) (getEntries st) = None.
Proof.
  unfold exist. intros H.
  destruct (find (sameKey language word) (getEntries st)) as [fav|] eqn:E;
    [|reflexivity].
  apply find_some in E. destruct E as [Hin Hk].
  assert (Ht : existsb (sameKey language word) (getEntries st) = true)
    by (apply existsb_exists; now exists fav).
  congruence.
Qed.

Lemma sameKey_keyOf (language word : string) (fav : FavoriteEntry.t) :
  sameKey language word fav = true <-> keyOf fav = (language, word).
Proof.
  unfold sameKey, keyOf. rewrite andb_true_iff, !String.eqb_eq.
  split; [intros [-> ->]; reflexivity | intros H; now inversion H].
Qed.

Lemma exist_keys (language word : string) (st : Storage) :
  exist language word st = true
  <-> In (language, word) (map keyOf (getEntries st)).
Proof.
  unfold exist. rewrite existsb_exists, in_map_iff. split.
  - intros [fav [Hin Hk]]. exists fav. split; [|assumption].
    now apply sameKey_keyOf.
  - intros [fav [Hk Hin]]. exists fav. split; [assumption|].
    now apply sameKey_keyOf.
Qed.

Lemma insertSorted_perm (localeCompare : string -> string -> Z)
  (x : FavoriteEntry.t) (l : list FavoriteEntry.t) :
  Permutation (insertSorted localeCompare x l) (x :: l).
Proof.
  induction l as [|y l IH]; cbn [insertSorted]; [reflexivity|].
  destruct (localeCompare (FavoriteEntry.word x) (FavoriteEntry.word y) <? 0)%Z;
    [reflexivity|].
  rewrite IH. apply perm_swap.
Qed.

Lemma sort_from_perm (localeCompare : string -> string -> Z)
  (l : list FavoriteEntry.t) :
  forall sorted,
    Permutation
      (fold_left (fun sorted x => insertSorted localeCompare x sorted) l sorted)
      (sorted ++ l)%list.
Proof.
  induction l as [|x l IH]; intros sorted; cbn [fold_left].
  - now rewrite app_nil_r.
  - rewrite IH, insertSorted_perm. cbn [app]. apply Permutation_middle.
Qed.

Lemma sort_perm (localeCompare : string -> string -> Z)
  (l : list FavoriteEntry.t) :
  Permutation (sort localeCompare l) l.
Proof. unfold sort. now rewrite sort_from_perm. Qed.

Lemma addEntry_new (localeCompare : string -> string -> Z)
  (language word markdown url : string) (st : Storage) :
  exist language word st = false ->
  addEntry localeCompare language word markdown url st
  = Some (sort localeCompare
            (getEntries st
             ++ [FavoriteEntry.mk (formatText language) (formatText word)
                   markdown url])%list).
Proof.
  intros H. unfold addEntry. now rewrite (exist_find _ _ _ H).
Qed.

Lemma removeEntry_keys (language word : string) (l : list FavoriteEntry.t) :
  filter (fun fav =>
            negb (String.eqb (FavoriteEntry.language fav) language)
            || negb (String.eqb (FavoriteEntry.word fav) word)) l
  = filter (fun fav => negb (sameKey language word fav)) l.
Proof.
  apply filter_ext. intros fav. unfold sameKey.
  now rewrite negb_andb.
Qed.

(** X1. After [removeEntry], [exist] answers false for the removed key,
    whatever the store held (every entry with that key is removed). *)
Theorem removeEntry_then_exist :
  forall (language word : string) (st : Storage),
    exist language word (removeEntry language word st) = false.
Proof.
  intros language word st. unfold exist, removeEntry. cbn [getEntries].
  rewrite removeEntry_keys.
  induction (getEntries st) as [|fav l IH]; [reflexivity|].
  cbn [filter]. destruct (sameKey language word fav) eqn:E; cbn [negb].
  - exact IH.
  - cbn [existsb]. now rewrite E, IH.
Qed.

(** X2. [removeEntry] does not change whether any other key is stored. *)
Theorem removeEntry_other_keys :
  forall (language word language' word' : string) (st : Storage),
    (language', word') <> (language, word) ->
    exist language' word' (removeEntry language word st)
    = exist language' word' st.
Proof.
  intros language word language' word' st Hne.
  unfold exist, removeEntry. cbn [getEntries]. rewrite removeEntry_keys.
  induction (getEntries st) as [|fav l IH]; [reflexivity|].
  cbn [filter existsb].
  destruct (sameKey language word fav) eqn:E; cbn [negb].
  - rewrite IH. apply sameKey_keyOf in E.
    destruct (sameKey language' word' fav) eqn:E'; [|reflexivity].
    apply sameKey_keyOf in E'. congruence.
  - cbn [existsb]. now rewrite IH.
Qed.

Lemma removeEntry_other_keys_witness :
  ("en", "walk") <> ("en", "run")
  /\ exist "en" "walk"
       (removeEntry "en" "run"
          (Some [FavoriteEntry.mk "en" "run" "m" "u";
                 FavoriteEntry.mk "en" "walk" "m" "u"]))
     = exist "en" "walk"
         (Some [FavoriteEntry.mk "en" "run" "m" "u";
                FavoriteEntry.mk "en" "walk" "m" "u"]).
Proof.
  assert (H : ("en", "walk") <> ("en", "run")) by discriminate.
  split; [exact H|].
  apply (removeEntry_other_keys "en" "run" "en" "walk" _ H).
Defined.

(** X3. When the arguments, as given, are not the key of a stored entry,
    [addEntry] stores the entries it found and the new, formatted one:
    nothing is lost, changed or added besides. *)
Theorem addEntry_keeps_entries :
  forall (localeCompare : string -> string -> Z)
    (language word markdown url : string) (st : Storage),
    exist language word st = false ->
    Permutation
      (getEntries (addEntry localeCompare language word markdown url st))
      (getEntries st
       ++ [FavoriteEntry.mk (formatText language) (formatText word)
             markdown url])%list.
Proof.
  intros localeCompare language word markdown url st H.
  rewrite (addEntry_new _ _ _ _ _ _ H). cbn [getEntries]. apply sort_perm.
Qed.

Lemma addEntry_keeps_entries_witness :
  exist "en" "walk" (Some [FavoriteEntry.mk "en" "run" "m" "u"]) = false
  /\ Permutation
       (getEntries
          (addEntry wordOrder "en" "walk" "m2" "u2"
             (Some [FavoriteEntry.mk "en" "run" "m" "u"])))
       ([FavoriteEntry.mk "en" "run" "m" "u"]
        ++ [FavoriteEntry.mk (formatText "en") (formatText "walk") "m2" "u2"])%list.
Proof.
  split; [reflexivity|].
  apply (addEntry_keeps_entries wordOrder "en" "walk" "m2" "u2"). reflexivity.
Defined.

(** X4. When the language and the word are already in the stored form
    (formatting leaves them as they are), the key is stored after
    [addEntry]. *)
Theorem addEntry_then_exist :
  forall (localeCompare : string -> string -> Z)
    (language word markdown url : string) (st : Storage),
    formatText language = language ->
    formatText word = word ->
    exist language word
      (addEntry localeCompare language word markdown url st) = true.
Proof.
  intros localeCompare language word markdown url st Hl Hw.
  destruct (exist language word st) eqn:E.
  - now rewrite addEntry_same_raw_key.
  - apply exist_keys. rewrite (addEntry_new _ _ _ _ _ _ E). cbn [getEntries].
    rewrite Hl, Hw.
    apply (Permutation_in _
             (Permutation_sym (Permutation_map keyOf (sort_perm _ _)))).
    rewrite map_app. apply in_or_app. right. now left.
Qed.

Lemma addEntry_then_exist_witness :
  formatText "en" = "en" /\ formatText "run" = "run"
  /\ exist "en" "run" (addEntry wordOrder "en" "run" "m" "u" None) = true.
Proof.
  assert (Hl : formatText "en" = "en") by (vm_compute; reflexivity).
  assert (Hw : formatText "run" = "run") by (vm_compute; reflexivity).
  split; [exact Hl|]. split; [exact Hw|].
  apply (addEntry_then_exist wordOrder "en" "run" "m" "u" None Hl Hw).
Defined.

(** X5. Keys stay unique when the arguments are already in the stored
    form: if no two stored entries share their (language, word) pair, none
    do after [addEntry]. *)
Theorem addEntry_keeps_keys_unique :
  forall (localeCompare : string -> string -> Z)
    (language word markdown url : string) (st : Storage),
    formatText language = language ->
    formatText word = word ->
    NoDup (map keyOf (getEntries st)) ->
    NoDup (map keyOf
             (getEntries
                (addEntry localeCompare language word markdown url st))).
Proof.
  intros localeCompare language word markdown url st Hl Hw Hnd.
  destruct (exist language word st) eqn:E.
  - now rewrite addEntry_same_raw_key.
  - rewrite (addEntry_new _ _ _ _ _ _ E). cbn [getEntries]. rewrite Hl, Hw.
    apply (Permutation_NoDup
             (Permutation_sym (Permutation_map keyOf (sort_perm _ _)))).
    rewrite map_app. cbn [map keyOf FavoriteEntry.language FavoriteEntry.word].
    apply (Permutation_NoDup (Permutation_cons_append _ _)).
    constructor; [|exact Hnd].
    intros Hin. apply (proj2 (exist_keys language word st)) in Hin.
    congruence.
Qed.

Lemma addEntry_keeps_keys_unique_witness :
  formatText "en" = "en" /\ formatText "run" = "run"
  /\ NoDup (map keyOf (getEntries (Some [FavoriteEntry.mk "en" "walk" "m" "u"])))
  /\ NoDup (map keyOf
              (getEntries
                 (addEntry wordOrder "en" "run" "m" "u"
                    (Some [FavoriteEntry.mk "en" "walk" "m" "u"])))).
Proof.
  assert (Hl : formatText "en" = "en") by (vm_compute; reflexivity).
  assert (Hw : formatText "run" = "run") by (vm_compute; reflexivity).
  assert (Hnd : NoDup (map keyOf
                         (getEntries
                            (Some [FavoriteEntry.mk "en" "walk" "m" "u"]))))
    by (repeat constructor; simpl; tauto).
  split; [exact Hl|]. split; [exact Hw|]. split; [exact Hnd|].
  apply (addEntry_keeps_keys_unique wordOrder "en" "run" "m" "u" _ Hl Hw Hnd).
Defined.

Lemma Permutation_filter {A : Type} (f : A -> bool) (l l' : list A) :
  Permutation l l' -> Permutation (filter f l) (filter f l').
Proof.
  induction 1 as [| x l l' _ IH | x y l | l l' l'' _ IH1 _ IH2].
  - reflexivity.
  - cbn [filter]. destruct (f x); [now constructor | assumption].
  - cbn [filter]. destruct (f x), (f y); try reflexivity. apply perm_swap.
  - now transitivity (filter f l').
Qed.

Lemma filter_all {A : Type} (f : A -> bool) (l : list A) :
  (forall x, In x l -> f x = true) -> filter f l = l.
Proof.
  induction l as [|x l IH]; intros H; [reflexivity|].
  cbn [filter]. rewrite (H x (or_introl eq_refl)). f_equal.
  apply IH. intros y Hy. apply H. now right.
Qed.

(** X6. Adding a key that is in the stored form and not yet stored, then
    removing it, gives back the entries the store held (up to the order
    [sort] puts them in). *)
Theorem addEntry_then_removeEntry :
  forall (localeCompare : string -> string -> Z)
    (language word markdown url : string) (st : Storage),
    formatText language = language ->
    formatText word = word ->
    exist language word st = false ->
    Permutation
      (getEntries
         (removeEntry language word
            (addEntry localeCompare language word markdown url st)))
      (getEntries st).
Proof.
  intros localeCompare language word markdown url st Hl Hw E.
  rewrite (addEntry_new _ _ _ _ _ _ E). unfold removeEntry.
  cbn [getEntries]. rewrite removeEntry_keys, Hl, Hw.
  rewrite (Permutation_filter _ _ _ (sort_perm _ _)).
  rewrite filter_app. cbn [filter].
  replace (sameKey language word
             (FavoriteEntry.mk language word markdown url)) with true
    by (symmetry; apply sameKey_keyOf; reflexivity).
  cbn [negb]. rewrite app_nil_r, filter_all; [reflexivity|].
  intros fav Hin. destruct (sameKey language word fav) eqn:Ek; [|reflexivity].
  assert (Ht : exist language word st = true)
    by (unfold exist; apply existsb_exists; now exists fav).
  congruence.
Qed.

Lemma addEntry_then_removeEntry_witness :
  formatText "en" = "en" /\ formatText "run" = "run"
  /\ exist "en" "run" (Some [FavoriteEntry.mk "en" "walk" "m" "u"]) = false
  /\ Permutation
       (getEntries
          (removeEntry "en" "run"
             (addEntry wordOrder "en" "run" "m" "u"
                (Some [FavoriteEntry.mk "en" "walk" "m" "u"]))))
       (getEntries (Some [FavoriteEntry.mk "en" "walk" "m" "u"])).
Proof.
  assert (Hl : formatText "en" = "en") by (vm_compute; reflexivity).
  assert (Hw : formatText "run" = "run") by (vm_compute; reflexivity).
  split; [exact Hl|]. split; [exact Hw|]. split; [reflexivity|].
  apply (addEntry_then_removeEntry wordOrder "en" "run" "m" "u" _ Hl Hw).
  reflexivity.
Defined.

Section Sortedness.
Variable localeCompare : string -> string -> Z.

(** The collation never puts two words each below the other. *)
Hypothesis asymmetric :
  forall a b : string,
    (localeCompare a b <? 0)%Z = true -> (localeCompare b a <? 0)%Z = false.

Lemma insertSorted_head (x : FavoriteEntry.t) (l : list FavoriteEntry.t)
  (y : FavoriteEntry.t) :
  inOrder localeCompare y x ->
  HdRel (inOrder localeCompare) y l ->
  HdRel (inOrder localeCompare) y (insertSorted localeCompare x l).
Proof.
  intros Hyx Hl. destruct l as [|z l]; cbn [insertSorted].
  - now constructor.
  - destruct (localeCompare (FavoriteEntry.word x) (FavoriteEntry.word z) <? 0)%Z.
    + now constructor.
    + constructor. now inversion Hl.
Qed.

Lemma insertSorted_sorted (x : FavoriteEntry.t) (l : list FavoriteEntry.t) :
  Sorted (inOrder localeCompare) l ->
  Sorted (inOrder localeCompare) (insertSorted localeCompare x l).
Proof.
  induction 1 as [|y l Hs IH Hh]; cbn [insertSorted].
  - repeat constructor.
  - destruct (localeCompare (FavoriteEntry.word x) (FavoriteEntry.word y) <? 0)%Z
      eqn:E.
    + constructor; [now constructor|]. constructor.
      unfold inOrder. now apply asymmetric.
    + constructor; [exact IH|]. now apply insertSorted_head.
Qed.

Lemma sort_sorted (l : list FavoriteEntry.t) :
  Sorted (inOrder localeCompare) (sort localeCompare l).
Proof.
  unfold sort.
  assert (H : forall sorted,
             Sorted (inOrder localeCompare) sorted ->
             Sorted (inOrder localeCompare)
               (fold_left (fun sorted x => insertSorted localeCompare x sorted)
                  l sorted)).
  { induction l as [|x l IH]; intros sorted Hs; cbn [fold_left];
      [assumption|].
    apply IH. now apply insertSorted_sorted. }
  apply H. constructor.
Qed.

End Sortedness.

(** X7. After [addEntry] has stored a new entry, the store is in the order
    of the collation: no entry is followed by one whose word compares below
    its own (for a collation that never puts two words each below the
    other). *)
Theorem addEntry_sorts_by_word :
  forall (localeCompare : string -> string -> Z)
    (language word markdown url : string) (st : Storage),
    (forall a b : string,
        (localeCompare a b <? 0)%Z = true ->
        (localeCompare b a <? 0)%Z = false) ->
    exist language word st = false ->
    Sorted (inOrder localeCompare)
      (getEntries (addEntry localeCompare language word markdown url st)).
Proof.
  intros localeCompare language word markdown url st Hasym E.
  rewrite (addEntry_new _ _ _ _ _ _ E). cbn [getEntries].
  now apply sort_sorted.
Qed.

Lemma wordOrder_asymmetric (a b : string) :
  (wordOrder a b <? 0)%Z = true -> (wordOrder b a <? 0)%Z = false.
Proof.
  unfold wordOrder. rewrite (String.compare_antisym a b).
  destruct (String.compare b a); cbn; intros H;
    [discriminate | discriminate | reflexivity].
Qed.

Lemma addEntry_sorts_by_word_witness :
  exist "en" "run"
    (Some [FavoriteEntry.mk "en" "walk" "m" "u";
           FavoriteEntry.mk "en" "jump" "m" "u"]) = false
  /\ getEntries
       (addEntry wordOrder "en" "run" "m" "u"
          (Some [FavoriteEntry.mk "en" "walk" "m" "u";
                 FavoriteEntry.mk "en" "jump" "m" "u"]))
     = [FavoriteEntry.mk "en" "jump" "m" "u";
        FavoriteEntry.mk "en" "run" "m" "u";
        FavoriteEntry.mk "en" "walk" "m" "u"]
  /\ Sorted (inOrder wordOrder)
       (getEntries
          (addEntry wordOrder "en" "run" "m" "u"
             (Some [FavoriteEntry.mk "en" "walk" "m" "u";
                    FavoriteEntry.mk "en" "jump" "m" "u"]))).
Proof.
  split; [reflexivity|]. split; [vm_compute; reflexivity|].
  apply (addEntry_sorts_by_word wordOrder "en" "run" "m" "u" _
           wordOrder_asymmetric).
  reflexivity.
Defined.

Lemma toLowerChar_not_upper (c : ascii) :
  negb (isUpper (toLowerChar c)) = true.
Proof. destruct c as [[] [] [] [] [] [] [] []]; reflexivity. Qed.

Lemma allChars_mapChars (p : ascii -> bool) (f : ascii -> ascii) (s : string) :
  (forall c, p (f c) = true) -> allChars p (mapChars f s) = true.
Proof.
  intros H. induction s as [|c s IH]; [reflexivity|].
  cbn [mapChars allChars]. now rewrite H, IH.
Qed.

Lemma allChars_append (p : ascii -> bool) (a b : string) :
  allChars p (a ++ b) = allChars p a && allChars p b.
Proof.
  induction a as [|c a IH]; [reflexivity|].
  cbn [append allChars]. now rewrite IH, andb_assoc.
Qed.

Lemma allChars_dropChars (p : ascii -> bool) (n : nat) :
  forall s, allChars p s = true -> allChars p (dropChars n s) = true.
Proof.
  induction n as [|n IH]; intros s H; [exact H|].
  destruct s as [|c s]; [reflexivity|].
  cbn [dropChars]. apply IH. cbn [allChars] in H.
  now apply andb_prop in H.
Qed.

Lemma allChars_replace (p : ascii -> bool) (pat rep s : string) :
  allChars p rep = true ->
  allChars p s = true ->
  allChars p (replace pat rep s) = true.
Proof.
  intros Hrep. induction s as [|c s IH]; intros Hs.
  - cbn [replace]. destruct (startsWith pat ""); [|reflexivity].
    rewrite allChars_append, Hrep. now apply allChars_dropChars.
  - cbn [replace]. destruct (startsWith pat (String c s)).
    + rewrite allChars_append, Hrep. now apply allChars_dropChars.
    + cbn [allChars] in Hs |- *. apply andb_prop in Hs.
      destruct Hs as [Hc Hs]. now rewrite Hc, IH.
Qed.

Lemma noUpper_formatText (t : string) : noUpper (formatText t) = true.
Proof.
  unfold noUpper, formatText. apply allChars_replace; [reflexivity|].
  apply allChars_mapChars. apply toLowerChar_not_upper.
Qed.

(** X8. The stored keys stay free of upper-case letters: if no stored
    language or word has a letter between A and Z, none has after
    [addEntry], whatever the arguments, nor after [removeEntry]. *)
Theorem stored_keys_stay_lower_case :
  forall (localeCompare : string -> string -> Z)
    (language word markdown url : string) (st : Storage),
    Forall lowerKey (getEntries st) ->
    Forall lowerKey
      (getEntries (addEntry localeCompare language word markdown url st))
    /\ Forall lowerKey (getEntries (removeEntry language word st)).
Proof.
  intros localeCompare language word markdown url st H. split.
  - destruct (exist language word st) eqn:E.
    + now rewrite addEntry_same_raw_key.
    + rewrite (addEntry_new _ _ _ _ _ _ E). cbn [getEntries].
      apply (Permutation_Forall (Permutation_sym (sort_perm _ _))).
      apply Forall_app. split; [exact H|].
      constructor; [|constructor].
      split; apply noUpper_formatText.
  - unfold removeEntry. cbn [getEntries]. apply Forall_forall.
    intros fav Hin. apply filter_In in Hin. destruct Hin as [Hin _].
    rewrite Forall_forall in H. now apply H.
Qed.

Lemma stored_keys_stay_lower_case_witness :
  Forall lowerKey (getEntries (Some [FavoriteEntry.mk "en" "walk" "m" "u"]))
  /\ getEntries
       (addEntry wordOrder " EN" "Run " "m" "u"
          (Some [FavoriteEntry.mk "en" "walk" "m" "u"]))
     = [FavoriteEntry.mk "en" "run" "m" "u";
        FavoriteEntry.mk "en" "walk" "m" "u"]
  /\ Forall lowerKey
       (getEntries
          (addEntry wordOrder " EN" "Run " "m" "u"
             (Some [FavoriteEntry.mk "en" "walk" "m" "u"])))
  /\ Forall lowerKey
       (getEntries
          (removeEntry " EN" "Run "
             (Some [FavoriteEntry.mk "en" "walk" "m" "u"]))).
Proof.
  assert (H : Forall lowerKey
                (getEntries (Some [FavoriteEntry.mk "en" "walk" "m" "u"])))
    by (repeat constructor).
  split; [exact H|]. split; [vm_compute; reflexivity|].
  apply (stored_keys_stay_lower_case wordOrder " EN" "Run " "m" "u" _ H).
Defined.

End FavoriteStore.

(** * Further properties of the renderer *)

(** ** Exceptions of the grouping loops *)

Section GroupingErrors.
Context {X V : Type}.
Variable init : X -> V.
Variable add : X -> V -> V.

Lemma getOwn_inherited (k : string) (o : JSObject.t V) :
  JSObject.inherited k = true ->
  Forall (fun kv => JSObject.inherited (fst kv) = false) o ->
  JSObject.getOwn k o = None.
Proof.
  intros Hk Ho. induction Ho as [|[k' v] o Hk' _ IH]; [reflexivity|].
  cbn [JSObject.getOwn]. destruct (String.eqb_spec k k') as [->|_];
    [cbn [fst] in Hk'; congruence | exact IH].
Qed.

Lemma groupStep_inherited (o : JSObject.t V) (k : string) (x : X) :
  JSObject.inherited k = true ->
  Forall (fun kv => JSObject.inherited (fst kv) = false) o ->
  groupStep init add o (k, x) = TypeError.
Proof.
  intros Hk Ho. unfold groupStep, JSObject.modify, JSObject.get. cbn [fst].
  now rewrite (getOwn_inherited k o Hk Ho), Hk.
Qed.

Lemma groupStep_not_inherited (o : JSObject.t V) (k : string) (x : X) :
  JSObject.inherited k = false ->
  groupStep init add o (k, x) = Ok (upsert init add k x o).
Proof.
  intros Hk. unfold groupStep, JSObject.modify, JSObject.get, upsert.
  cbn [fst snd]. destruct (JSObject.getOwn k o); [reflexivity|].
  now rewrite Hk.
Qed.

Lemma upsert_keeps_own_keys (k : string) (x : X) (o : JSObject.t V) :
  JSObject.inherited k = false ->
  Forall (fun kv => JSObject.inherited (fst kv) = false) o ->
  Forall (fun kv => JSObject.inherited (fst kv) = false)
    (upsert init add k x o).
Proof.
  intros Hk Ho. induction Ho as [|[k' v] o Hk' Ho IH].
  - repeat constructor. exact Hk.
  - rewrite upsert_cons. destruct (String.eqb k k').
    + constructor; [exact Hk | exact Ho].
    + constructor; [exact Hk' | exact IH].
Qed.

(** A grouping loop throws exactly when one of its keys is a name
    inherited from [Object.prototype]. *)
Lemma grouping_throws (items : list (string * X)) :
  forall o : JSObject.t V,
    Forall (fun kv => JSObject.inherited (fst kv) = false) o ->
    (foldM (groupStep init add) items o = TypeError
     <-> Exists (fun kx => JSObject.inherited (fst kx) = true) items).
Proof.
  induction items as [|[k x] items IH]; intros o Ho.
  - cbn [foldM]. split; [discriminate | intros H; inversion H].
  - cbn [foldM]. destruct (JSObject.inherited k) eqn:Hk.
    + rewrite (groupStep_inherited o k x Hk Ho). cbn [bind].
      split; [intros _; now left | reflexivity].
    + rewrite (groupStep_not_inherited o k x Hk). cbn [bind].
      rewrite (IH _ (upsert_keeps_own_keys k x o Hk Ho)).
      split; [intros H; now right|].
      intros H. inversion H as [? ? Hh | ? ? Ht]; subst;
        [cbn [fst] in Hh; congruence | exact Ht].
Qed.

(** Without inherited names the loop builds, in creation order, the groups
    in the order their keys are first met. *)
Lemma grouping_creation_order (items : list (string * X)) :
  Forall (fun kx => JSObject.inherited (fst kx) = false) items ->
  foldM (groupStep init add) items JSObject.empty
  = Ok (firstEncounter init add items).
Proof.
  induction items as [|[k x] items IH] using rev_ind; intros H.
  - reflexivity.
  - apply Forall_app in H. destruct H as [H1 H2].
    rewrite foldM_app, (IH H1). cbn [bind foldM].
    rewrite groupStep_not_inherited by (now inversion H2).
    cbn [bind]. now rewrite firstEncounter_snoc.
Qed.

End GroupingErrors.

(** ** The enumeration of a plain object *)

Lemma insertIndexed_perm {V : Type} (n : N) (kv : string * V)
  (l : list (N * (string * V))) :
  Permutation (JSObject.insertIndexed n kv l) ((n, kv) :: l).
Proof.
  induction l as [|[m kv'] l IH]; cbn [JSObject.insertIndexed]; [reflexivity|].
  destruct (n <? m)%N; [reflexivity|]. rewrite IH. apply perm_swap.
Qed.

Lemma indexed_perm {V : Type} (o : JSObject.t V) :
  Permutation (map snd (JSObject.indexed o))
    (filter (fun kv => JSObject.isArrayIndex (fst kv)) o).
Proof.
  induction o as [|kv o IH]; [reflexivity|].
  cbn [JSObject.indexed filter]. unfold JSObject.isArrayIndex at 1.
  destruct (JSObject.arrayIndex (fst kv)) as [n|]; [|exact IH].
  rewrite (Permutation_map snd (insertIndexed_perm n kv _)).
  cbn [map snd]. now constructor.
Qed.

Lemma filter_split_perm {A : Type} (f : A -> bool) (l : list A) :
  Permutation (filter f l ++ filter (fun x => negb (f x)) l)%list l.
Proof.
  induction l as [|x l IH]; [reflexivity|].
  cbn [filter]. destruct (f x); cbn [negb app].
  - now constructor.
  - rewrite <- Permutation_middle. now constructor.
Qed.

(** [Object.entries] lists every own property once. *)
Lemma entries_perm {V : Type} (o : JSObject.t V) :
  Permutation (JSObject.entries o) o.
Proof.
  unfold JSObject.entries. rewrite indexed_perm.
  apply (filter_split_perm (fun kv => JSObject.isArrayIndex (fst kv))).
Qed.

(** ** The source link *)

Section SourceLink.
Import Dictionary.

Lemma escaped_spaces (s : string) :
  includes (replaceAll " " "%20" s) " " = false.
Proof.
  unfold replaceAll. induction s as [|c s IH]; [reflexivity|].
  cbn [replaceAllFrom String.length Nat.sub].
  change (startsWith " " (String c s)) with (Ascii.eqb " " c && true).
  destruct (Ascii.eqb " " c) eqn:E; cbn [andb].
  - change ("%20" ++ replaceAllFrom " " "%20" 0 s)
      with (String "%" (String "2" (String "0"
              (replaceAllFrom " " "%20" 0 s)))).
    rewrite !includes_cons. rewrite IH. reflexivity.
  - rewrite includes_cons, IH.
    change (startsWith " " (String c (replaceAllFrom " " "%20" 0 s)))
      with (Ascii.eqb " " c && true).
    now rewrite E.
Qed.

(** X9. After [renderMarkdown], whether it returned or threw, [getURL] is
    the source URL with every space written [%20]: it holds no space. *)
Theorem getURL_has_no_space :
  forall (this : Dictionary.t) (entry : DictionaryEntry.t),
    getURL (fst (renderMarkdown this entry))
    = replaceAll " " "%20" (Source.url (DictionaryEntry.source entry))
    /\ includes (getURL (fst (renderMarkdown this entry))) " " = false.
Proof.
  intros this entry. split; [reflexivity|].
  unfold renderMarkdown, getURL. cbn [fst urlWord]. apply escaped_spaces.
Qed.

End SourceLink.

(** ** Exceptions of the renderer *)

Section RendererErrors.
Import Dictionary.

Lemma groupPronunciations_flat (pronunciations : list Pronunciation.t)
  (o : JSObject.t PronGroup) :
  foldM groupPronunciation pronunciations o
  = foldM (groupStep newPronGroup pushPron) (taggings pronunciations) o.
Proof.
  rewrite (foldM_ext groupPronunciation
             (fun o p => foldM (groupStep newPronGroup pushPron)
                           (taggingsOf p) o))
    by apply groupPronunciation_steps.
  apply foldM_flat_map.
Qed.

Lemma taggings_inherited (pronunciations : list Pronunciation.t) :
  Exists (fun kx : string * Pronunciation.t =>
            JSObject.inherited (fst kx) = true) (taggings pronunciations)
  <-> exists p tag,
        In p pronunciations /\ In tag (Pronunciation.tags p)
        /\ JSObject.inherited tag = true.
Proof.
  rewrite Exists_exists. unfold taggings, taggingsOf. split.
  - intros [[tag p'] [Hin Hk]]. apply in_flat_map in Hin.
    destruct Hin as [p [Hp Hin]]. apply in_map_iff in Hin.
    destruct Hin as [tag' [Heq Htag]]. inversion Heq; subst tag' p'.
    cbn [fst] in Hk. exists p, tag.
    destruct (Pronunciation.tags p) as [|t ts].
    + cbn [isEmpty] in Htag. destruct Htag as [<-|[]]. discriminate.
    + cbn [isEmpty] in Htag. auto.
  - intros [p [tag [Hp [Htag Hk]]]]. exists (tag, p). split; [|exact Hk].
    apply in_flat_map. exists p. split; [exact Hp|].
    destruct (Pronunciation.tags p) as [|t ts]; [contradiction|].
    cbn [isEmpty]. exact (in_map (fun tag => (tag, p)) _ _ Htag).
Qed.

Lemma renderPronunciations_throws (pronunciations : list Pronunciation.t) :
  renderPronunciations pronunciations = TypeError
  <-> exists p tag,
        In p pronunciations /\ In tag (Pronunciation.tags p)
        /\ JSObject.inherited tag = true.
Proof.
  rewrite <- taggings_inherited.
  rewrite <- (grouping_throws newPronGroup pushPron
                (taggings pronunciations) JSObject.empty)
    by constructor.
  rewrite <- groupPronunciations_flat. unfold renderPronunciations.
  destruct pronunciations as [|p0 rest].
  - cbn [isEmpty foldM]. split; discriminate.
  - cbn [isEmpty].
    destruct (foldM groupPronunciation (p0 :: rest) JSObject.empty)
      as [grouped|]; cbn [bind].
    + destruct (isEmpty (JSObject.entries grouped)); split; discriminate.
    + split; reflexivity.
Qed.

(** X10. [renderPronunciations] throws exactly when some pronunciation has
    a tag that is a name inherited from [Object.prototype] (such as
    [constructor]); on every other input it returns a text. *)
Theorem renderPronunciations_throws_on_inherited_tag :
  forall pronunciations : list Pronunciation.t,
    renderPronunciations pronunciations = TypeError
    <-> exists p tag,
          In p pronunciations /\ In tag (Pronunciation.tags p)
          /\ JSObject.inherited tag = true.
Proof. exact renderPronunciations_throws. Qed.

(** X12. [renderForms] never throws, in either branch: the keys of its
    grouping are names of the vocabularies, the empty string, or
    [non-finite]. *)
Theorem renderForms_never_throws :
  forall (this : Dictionary.t) (forms : list Form.t),
    exists md, renderForms this forms = Ok md.
Proof. intros this forms. apply renderForms_total. Qed.

Lemma modify_not_empty {V : Type} (k : string) (init : V)
  (f : V -> Result V) (o o' : JSObject.t V) :
  JSObject.modify k init f o = Ok o' -> o' <> [].
Proof.
  unfold JSObject.modify.
  assert (Hs : forall v, JSObject.set k v o <> []).
  { intros v. destruct o as [|[k' v'] o]; cbn [JSObject.set];
      [discriminate|]. destruct (String.eqb k k'); discriminate. }
  destruct (JSObject.get k o) as [v| |].
  - destruct (f v) as [v'|]; cbn [bind]; [|discriminate].
    intros H. injection H as <-. apply Hs.
  - discriminate.
  - destruct (f init) as [v'|]; cbn [bind]; [|discriminate].
    intros H. injection H as <-. apply Hs.
Qed.

Lemma grouping_not_empty {X V : Type} (init : X -> V) (add : X -> V -> V)
  (items : list (string * X)) :
  forall o o' : JSObject.t V,
    foldM (groupStep init add) items o = Ok o' ->
    o <> [] \/ items <> [] ->
    o' <> [].
Proof.
  induction items as [|kx items IH]; intros o o' H Hne.
  - cbn [foldM] in H. injection H as <-. destruct Hne; congruence.
  - cbn [foldM] in H.
    destruct (groupStep init add o kx) as [o1|] eqn:E; [|discriminate].
    cbn [bind] in H. apply (IH o1 o' H). left.
    exact (modify_not_empty _ _ _ _ _ E).
Qed.

Lemma startsWith_append (a b : string) : startsWith a (a ++ b) = true.
Proof.
  induction a as [|c a IH]; [reflexivity|].
  cbn [append startsWith]. now rewrite Ascii.eqb_refl, IH.
Qed.

(** X13. For a non-empty array, [renderPronunciations] never returns the
    empty string: when it returns, the text starts with the header of the
    table (the second test for emptiness in the source never fires). *)
Theorem renderPronunciations_writes_table :
  forall (pronunciations : list Pronunciation.t) (md : string),
    pronunciations <> [] ->
    renderPronunciations pronunciations = Ok md ->
    startsWith
      ("| Dialect | Pronunciation | Phonetic System | " ++ nl
       ++ "|---|---|---|" ++ nl) md = true.
Proof.
  intros pronunciations md Hne H. unfold renderPronunciations in H.
  destruct pronunciations as [|p0 rest]; [congruence|].
  cbn [isEmpty] in H.
  destruct (foldM groupPronunciation (p0 :: rest) JSObject.empty)
    as [grouped|] eqn:E; [|discriminate].
  cbn [bind] in H. rewrite groupPronunciations_flat in E.
  assert (Hg : grouped <> []).
  { apply (grouping_not_empty _ _ _ _ _ E). right.
    unfold taggings. cbn [flat_map].
    pose proof (taggingsOf_not_empty p0) as Hp0.
    destruct (taggingsOf p0); [congruence | discriminate]. }
  assert (He : isEmpty (JSObject.entries grouped) = false).
  { destruct (JSObject.entries grouped) eqn:Ee; [|reflexivity].
    pose proof (entries_perm grouped) as Hp. rewrite Ee in Hp.
    apply Permutation_nil in Hp. congruence. }
  rewrite He in H. injection H as <-.
  rewrite (fold_left_appends pronunciationRow (pronunciationRow ""))
    by apply pronunciationRow_appends.
  rewrite !append_assoc.
  apply (startsWith_append
           ("| Dialect | Pronunciation | Phonetic System | " ++ nl
            ++ "|---|---|---|" ++ nl)).
Qed.

Lemma renderPronunciations_writes_table_witness :
  twoDialects <> []
  /\ (exists md, renderPronunciations twoDialects = Ok md
                 /\ startsWith
                      ("| Dialect | Pronunciation | Phonetic System | " ++ nl
                       ++ "|---|---|---|" ++ nl) md = true).
Proof.
  split; [discriminate|].
  eexists. split; [vm_compute; reflexivity|].
  apply (renderPronunciations_writes_table twoDialects);
    [discriminate | vm_compute; reflexivity].
Defined.

End RendererErrors.

Section MarkdownErrors.
Import Dictionary.

Lemma renderSections_throw (this : Dictionary.t) (groups : list Group) :
  forall md,
    foldM (renderSection this) groups md = TypeError
    <-> Exists (fun g => renderPronunciations (pronunciations g) = TypeError)
          groups.
Proof.
  induction groups as [|g groups IH]; intros md.
  - cbn [foldM]. split; [discriminate | intros H; inversion H].
  - cbn [foldM]. unfold renderSection at 1.
    destruct (renderPronunciations (pronunciations g)) as [p|] eqn:Ep;
      cbn [bind].
    + destruct (renderForms_total this (forms g)) as [f ->]. cbn [bind].
      rewrite IH. split; [intros H; now right|].
      intros H. inversion H as [? ? Hh | ? ? Ht]; subst;
        [congruence | exact Ht].
    + split; [intros _; now left | reflexivity].
Qed.

Lemma groupEntries_throw (entries : list LanguageEntry.t) :
  foldM groupEntry entries JSObject.empty = TypeError
  <-> exists e, In e entries
                /\ JSObject.inherited (LanguageEntry.partOfSpeech e) = true.
Proof.
  transitivity
    (foldM (groupStep newGroup pushEntry) (map keyed entries) JSObject.empty
     = TypeError).
  - now rewrite <- (foldM_map (groupStep newGroup pushEntry) keyed).
  - rewrite grouping_throws by constructor.
    rewrite Exists_exists. split.
    + intros [kx [Hin Hk]]. apply in_map_iff in Hin.
      destruct Hin as [e [<- He]]. now exists e.
    + intros [e [He Hk]]. exists (keyed e). split; [now apply in_map|].
      exact Hk.
Qed.

Lemma groupEntries_creation_order (entries : list LanguageEntry.t) :
  (forall e, In e entries ->
             JSObject.inherited (LanguageEntry.partOfSpeech e) = false) ->
  foldM groupEntry entries JSObject.empty
  = Ok (firstEncounter newGroup pushEntry (map keyed entries)).
Proof.
  intros H.
  transitivity
    (foldM (groupStep newGroup pushEntry) (map keyed entries) JSObject.empty).
  - exact (foldM_map (groupStep newGroup pushEntry) keyed entries
             JSObject.empty).
  - apply grouping_creation_order. apply Forall_map. apply Forall_forall.
    exact H.
Qed.

Lemma values_perm (entries : list LanguageEntry.t) :
  Permutation
    (JSObject.values
       (firstEncounter newGroup pushEntry (map keyed entries)))
    (firstEncounterGroups entries).
Proof.
  unfold JSObject.values. rewrite <- values_firstEncounter.
  apply Permutation_map. apply entries_perm.
Qed.

(** The pronunciations of the groups are those of the entries. *)
Lemma group_pronunciations (entries : list LanguageEntry.t)
  (p : Pronunciation.t) :
  (exists g, In g (firstEncounterGroups entries) /\ In p (pronunciations g))
  <-> exists e, In e entries /\ In p (LanguageEntry.pronunciations e).
Proof.
  unfold firstEncounterGroups. split.
  - intros [g [Hg Hp]]. apply in_map_iff in Hg.
    destruct Hg as [kx0 [<- _]]. cbn [mergeGroup pronunciations] in Hp.
    apply in_flat_map in Hp. destruct Hp as [e [He Hp]].
    exists e. split; [|exact Hp]. unfold members in He.
    apply in_map_iff in He. destruct He as [kx [<- Hkx]].
    apply filter_In in Hkx. destruct Hkx as [Hkx _].
    apply in_map_iff in Hkx. destruct Hkx as [e' [<- He']]. exact He'.
  - intros [e [He Hp]].
    assert (Hk : In (LanguageEntry.partOfSpeech e)
                   (map fst (firsts (map keyed entries)))).
    { destruct (firstsFrom_keys (map keyed entries) []) as [_ Hkeys].
      apply Hkeys. split; [|intros []].
      apply in_map_iff. exists (keyed e). split; [reflexivity|].
      now apply in_map. }
    apply in_map_iff in Hk. destruct Hk as [kx0 [Hfst Hkx0]].
    exists (mergeGroup (snd kx0) (members (fst kx0) (map keyed entries))).
    split.
    + apply in_map_iff. now exists kx0.
    + cbn [mergeGroup pronunciations]. apply in_flat_map. exists e.
      split; [|exact Hp]. unfold members. apply in_map_iff.
      exists (keyed e). split; [reflexivity|]. apply filter_In.
      split; [now apply in_map|]. cbn [keyed fst]. rewrite Hfst.
      apply String.eqb_refl.
Qed.

(** X11. [renderMarkdown] throws exactly when some part-of-speech tag or
    some dialect tag of the record is a name inherited from
    [Object.prototype]; for every other record it returns a document. *)
Theorem renderMarkdown_throws_on_inherited_name :
  forall (this : Dictionary.t) (entry : DictionaryEntry.t),
    snd (renderMarkdown this entry) = TypeError
    <-> (exists e,
            In e (DictionaryEntry.entries entry)
            /\ JSObject.inherited (LanguageEntry.partOfSpeech e) = true)
        \/ (exists e p tag,
               In e (DictionaryEntry.entries entry)
               /\ In p (LanguageEntry.pronunciations e)
               /\ In tag (Pronunciation.tags p)
               /\ JSObject.inherited tag = true).
Proof.
  intros this entry. unfold renderMarkdown. cbn [snd].
  set (this' := Dictionary.mk _ _ _).
  assert (Hraw : (md <- rawMarkdown this' entry ;; Ok (replaceAll ".." "." md))
                 = TypeError
                 <-> rawMarkdown this' entry = TypeError).
  { destruct (rawMarkdown this' entry); cbn [bind]; split;
      congruence. }
  rewrite Hraw. unfold rawMarkdown.
  destruct (existsb (fun e => JSObject.inherited (LanguageEntry.partOfSpeech e))
              (DictionaryEntry.entries entry)) eqn:Ex.
  - apply existsb_exists in Ex.
    rewrite (proj2 (groupEntries_throw _) Ex). cbn [bind].
    split; [intros _; now left | reflexivity].
  - assert (Hno : forall e, In e (DictionaryEntry.entries entry) ->
                    JSObject.inherited (LanguageEntry.partOfSpeech e) = false).
    { intros e He.
      destruct (JSObject.inherited (LanguageEntry.partOfSpeech e)) eqn:Ei;
        [|reflexivity].
      assert (Ht : existsb
                     (fun e => JSObject.inherited (LanguageEntry.partOfSpeech e))
                     (DictionaryEntry.entries entry) = true)
        by (apply existsb_exists; now exists e).
      congruence. }
    rewrite (groupEntries_creation_order _ Hno). cbn [bind].
    rewrite renderSections_throw, Exists_exists. split.
    + intros [g [Hg Hthrow]]. right.
      apply renderPronunciations_throws in Hthrow.
      destruct Hthrow as [p [tag [Hp [Htag Hk]]]].
      apply (Permutation_in _ (values_perm _)) in Hg.
      destruct (proj1 (group_pronunciations
                         (DictionaryEntry.entries entry) p))
        as [e [He Hpe]]; [now exists g|].
      now exists e, p, tag.
    + intros [[e [He Hk]] | [e [p [tag [He [Hp [Htag Hk]]]]]]].
      * rewrite (Hno e He) in Hk. discriminate.
      * destruct (proj2 (group_pronunciations
                           (DictionaryEntry.entries entry) p))
          as [g [Hg Hpg]]; [now exists e|].
        exists g. split.
        -- apply (Permutation_in _ (Permutation_sym (values_perm _))).
           exact Hg.
        -- apply renderPronunciations_throws. now exists p, tag.
Qed.



End MarkdownErrors.

(** ** More on the forms *)

Section FormsMore.
Import Dictionary.

Lemma groupForm_skipped (grouped : Grouped) (f : Form.t) :
  skipped f = true -> groupForm grouped f = Ok grouped.
Proof.
  unfold skipped, groupForm. intros H.
  destruct (isEmpty (Form.tags f)); [reflexivity|].
  destruct (hasInvalidTag f); [reflexivity|].
  destruct (wordMentions (Form.word f) tenses); [reflexivity|].
  destruct (wordMentions (Form.word f) numbers); [reflexivity|].
  destruct (wordMentions (Form.word f) persons); [reflexivity|].
  discriminate.
Qed.

Lemma foldM_groupForm_kept (forms : list Form.t) :
  forall grouped,
    foldM groupForm forms grouped = foldM groupForm (filter kept forms) grouped.
Proof.
  induction forms as [|f forms IH]; intros grouped; [reflexivity|].
  cbn [foldM filter]. unfold kept at 1.
  destruct (skipped f) eqn:E; cbn [negb].
  - rewrite (groupForm_skipped _ _ E). cbn [bind]. apply IH.
  - cbn [foldM]. destruct (groupForm grouped f); cbn [bind];
      [apply IH | reflexivity].
Qed.

(** X16. In the complex branch the section depends only on the forms the
    grouping keeps: a form without tags, with one of the tags
    [inflection-template], [table-tags] or [class], or whose word contains
    the name of a tense, number or person as written in the vocabularies,
    can be taken out of a non-empty array without changing the section
    (only the heading is left when no form is kept). *)
Theorem complex_branch_ignores_skipped_forms :
  forall (this : Dictionary.t) (forms : list Form.t),
    inArray (language this) complexConjugationsLanguages = true ->
    forms <> [] ->
    renderForms this forms
    = if isEmpty (filter kept forms)
      then Ok ("### Forms" ++ nl ++ nl ++ nl)
      else renderForms this (filter kept forms).
Proof.
  intros this forms Hc Hne. unfold renderForms. rewrite Hc.
  destruct forms as [|f0 rest] eqn:E; [congruence|]. rewrite <- E.
  replace (isEmpty forms) with false by (now rewrite E).
  rewrite foldM_groupForm_kept.
  destruct (filter kept forms) as [|f kf] eqn:Ek; [reflexivity|].
  cbn [isEmpty]. rewrite <- Ek.
  assert (Hk : filter kept (filter kept forms) = filter kept forms).
  { apply filter_all. intros x Hx. now apply filter_In in Hx. }
  now rewrite foldM_groupForm_kept, Hk.
Qed.

Lemma complex_branch_ignores_skipped_forms_witness :
  inArray (language es) complexConjugationsLanguages = true
  /\ [Form.mk "hablo" ["indicative"; "present"; "singular"; "first-person"];
      Form.mk "no-table-tags" ["table-tags"];
      Form.mk "present indicative" ["indicative"; "present"]] <> []
  /\ renderForms es
       [Form.mk "hablo" ["indicative"; "present"; "singular"; "first-person"];
        Form.mk "no-table-tags" ["table-tags"];
        Form.mk "present indicative" ["indicative"; "present"]]
     = renderForms es
         [Form.mk "hablo" ["indicative"; "present"; "singular"; "first-person"]].
Proof.
  split; [reflexivity|]. split; [discriminate|].
  exact (complex_branch_ignores_skipped_forms es
           [Form.mk "hablo" ["indicative"; "present"; "singular"; "first-person"];
            Form.mk "no-table-tags" ["table-tags"];
            Form.mk "present indicative" ["indicative"; "present"]]
           eq_refl ltac:(discriminate)).
Defined.

Lemma bullets_filter (forms : list Form.t) :
  bullets forms
  = join "" (map bulletLine (filter (fun f => negb (hasInvalidTag f)) forms)).
Proof.
  induction forms as [|f forms IH]; [reflexivity|].
  change (f :: forms) with ([f] ++ forms)%list at 1.
  rewrite bullets_app, IH. cbn [filter]. unfold bullets at 1.
  cbn [fold_left]. unfold simpleBullet.
  destruct (hasInvalidTag f); cbn [negb]; [reflexivity|].
  cbn [map]. now rewrite join_empty_cons.
Qed.

(** X17. In the simple branch a non-empty array of forms renders to the
    heading and one bullet [- word (tag1, tag2, ...)] per form, in input
    order, leaving out exactly the forms that carry one of the tags
    [inflection-template], [table-tags] or [class]. *)
Theorem simple_branch_bullets :
  forall (this : Dictionary.t) (forms : list Form.t),
    inArray (language this) complexConjugationsLanguages = false ->
    forms <> [] ->
    renderForms this forms
    = Ok ("### Forms" ++ nl
          ++ join ""
               (map bulletLine
                  (filter (fun f => negb (hasInvalidTag f)) forms))
          ++ nl ++ nl).
Proof.
  intros this forms Hc Hne. unfold renderForms. rewrite Hc.
  destruct forms as [|f0 rest] eqn:E; [congruence|]. rewrite <- E.
  replace (isEmpty forms) with false by (now rewrite E).
  now rewrite bullets_from, bullets_filter, !append_assoc.
Qed.

Lemma simple_branch_bullets_witness :
  inArray (language (Dictionary.new "en" "run")) complexConjugationsLanguages
  = false
  /\ renderForms (Dictionary.new "en" "run")
       [Form.mk "running" ["gerund"];
        Form.mk "en-verb" ["inflection-template"];
        Form.mk "ran" ["past"]]
     = Ok ("### Forms" ++ nl
           ++ "- running (gerund)" ++ nl
           ++ "- ran (past)" ++ nl
           ++ nl ++ nl).
Proof.
  split; [reflexivity|].
  rewrite (simple_branch_bullets (Dictionary.new "en" "run")
             [Form.mk "running" ["gerund"];
              Form.mk "en-verb" ["inflection-template"];
              Form.mk "ran" ["past"]] eq_refl ltac:(discriminate)).
  vm_compute. reflexivity.
Defined.

Lemma find_tag_in (tags vocabulary : list string) (s : string) :
  find (fun m => inArray m tags) vocabulary = Some s ->
  In s vocabulary /\ In s tags.
Proof.
  intros H. apply find_some in H. destruct H as [Hv Ht].
  split; [exact Hv | now apply inArray_In].
Qed.

Lemma find_tag_none (tags vocabulary : list string) :
  find (fun m => inArray m tags) vocabulary = None ->
  forall m, In m vocabulary -> ~ In m tags.
Proof.
  intros H m Hm Ht. apply (find_none _ _ H) in Hm.
  apply inArray_In in Ht. congruence.
Qed.

Lemma moods_named (s : string) :
  In s moods -> truthy s = true /\ s <> "non-finite".
Proof.
  intros H. unfold moods in H. cbn [In] in H.
  repeat (destruct H as [<-|H]; [split; [reflexivity | discriminate]|]).
  contradiction.
Qed.

Lemma nonfiniteMoods_named (s : string) :
  In s nonfiniteMoods -> truthy s = true.
Proof.
  intros H. unfold nonfiniteMoods in H. cbn [In] in H.
  repeat (destruct H as [<-|H]; [reflexivity|]). contradiction.
Qed.

(** X18. The mood label of a form.  It is [non-finite] exactly when the
    form has no tag among the finite moods and has a tag among gerund,
    participle and infinitive; with a finite mood among its tags the label
    is one of the finite moods, and [indicative] whenever that tag is
    present, whatever the other tags; with neither kind of tag it is
    [indicative]. *)
Theorem mood_label :
  forall f : Form.t,
    (moodOf f = "non-finite"
     <-> (forall m, In m moods -> ~ In m (Form.tags f))
         /\ (exists nm, In nm nonfiniteMoods /\ In nm (Form.tags f)))
    /\ ((exists m, In m moods /\ In m (Form.tags f)) ->
        In (moodOf f) moods /\ In (moodOf f) (Form.tags f))
    /\ (In "indicative" (Form.tags f) -> moodOf f = "indicative")
    /\ ((forall m, In m moods -> ~ In m (Form.tags f)) ->
        (forall nm, In nm nonfiniteMoods -> ~ In nm (Form.tags f)) ->
        moodOf f = "indicative").
Proof.
  intros f. unfold moodOf, findOr.
  destruct (find (fun m => inArray m (Form.tags f)) moods) as [s|] eqn:Em.
  - destruct (find_tag_in _ _ _ Em) as [Hs Ht].
    destruct (moods_named s Hs) as [Htr Hnf]. rewrite Htr.
    split; [|split; [|split]].
    + split; [congruence|]. intros [Hno _]. exfalso. exact (Hno s Hs Ht).
    + intros _. now split.
    + intros Hi. apply inArray_In in Hi.
      unfold moods in Em. cbn [find] in Em. rewrite Hi in Em. congruence.
    + intros Hno _. exfalso. exact (Hno s Hs Ht).
  - pose proof (find_tag_none _ _ Em) as Hno.
    destruct (find (fun nm => inArray nm (Form.tags f)) nonfiniteMoods)
      as [nm|] eqn:En.
    + destruct (find_tag_in _ _ _ En) as [Hs Ht].
      rewrite (nonfiniteMoods_named nm Hs).
      split; [|split; [|split]].
      * split; [intros _; split; [exact Hno | now exists nm] | reflexivity].
      * intros [m [Hm Hmt]]. exfalso. exact (Hno m Hm Hmt).
      * intros Hi. exfalso. apply (Hno "indicative"); [now left | exact Hi].
      * intros _ Hnn. exfalso. exact (Hnn nm Hs Ht).
    + pose proof (find_tag_none _ _ En) as Hnn.
      split; [|split; [|split]].
      * split; [discriminate|]. intros [_ [nm [Hs Ht]]]. exfalso.
        exact (Hnn nm Hs Ht).
      * intros [m [Hm Hmt]]. exfalso. exact (Hno m Hm Hmt).
      * reflexivity.
      * reflexivity.
Qed.

Lemma mood_label_witness :
  moodOf (Form.mk "hablando" ["gerund"]) = "non-finite"
  /\ moodOf (Form.mk "habla" ["imperative"; "indicative"]) = "indicative"
  /\ In (moodOf (Form.mk "hable" ["subjunctive"; "present"])) moods
  /\ moodOf (Form.mk "hablo" ["present"; "singular"]) = "indicative".
Proof.
  split; [|split; [|split]].
  - apply (proj1 (mood_label (Form.mk "hablando" ["gerund"]))). split.
    + intros m Hm [E|[]]. subst m. revert Hm. unfold moods. cbn [In].
      intros H. repeat (destruct H as [H|H]; [discriminate|]). exact H.
    + exists "gerund". split; now left.
  - apply (proj1 (proj2 (proj2
             (mood_label (Form.mk "habla" ["imperative"; "indicative"]))))).
    right. now left.
  - apply (proj1 (proj2
             (mood_label (Form.mk "hable" ["subjunctive"; "present"])))).
    exists "subjunctive". split; [|now left].
    unfold moods. cbn [In]. tauto.
  - apply (proj2 (proj2 (proj2
             (mood_label (Form.mk "hablo" ["present"; "singular"]))))).
    + intros m Hm Hin. revert Hm. unfold moods. cbn [In Form.tags] in *.
      intros H.
      repeat (destruct H as [H|H];
              [subst m; destruct Hin as [E|[E|[]]]; discriminate|]).
      exact H.
    + intros nm Hm Hin. revert Hm. unfold nonfiniteMoods.
      cbn [In Form.tags] in *. intros H.
      repeat (destruct H as [H|H];
              [subst nm; destruct Hin as [E|[E|[]]]; discriminate|]).
      exact H.
Defined.

End FormsMore.

(** ** The sections of the complex branch *)

Section ComplexSections.
Import Dictionary.

Lemma nonFiniteRows_emit (st : RenderState) (numbersObj : NumbersObj) :
  nonFiniteRows st numbersObj
  = fold_left emitRow (nonFiniteBucketRows numbersObj) st.
Proof.
  unfold nonFiniteRows, nonFiniteBucketRows.
  rewrite <- fold_left_flat_map. apply fold_left_ext. intros st' np.
  rewrite <- fold_left_flat_map. apply fold_left_ext. intros st'' pf.
  apply fold_left_map.
Qed.

Lemma tenseStep_nonFinite (md : string) (bucket : string * NumbersObj) :
  tenseStep "non-finite" true (md, []) bucket
  = (md ++ nonFiniteTable bucket, []).
Proof.
  destruct bucket as [tense numbersObj]. unfold tenseStep, nonFiniteTable.
  cbn [fst snd String.eqb Ascii.eqb Bool.eqb negb andb].
  rewrite andb_true_r. destruct (truthy tense).
  - now rewrite append_nil_r.
  - rewrite nonFiniteRows_emit, emitRows. reflexivity.
Qed.

Lemma nonFinite_tenses_fold (buckets : list (string * NumbersObj)) :
  forall md,
    fold_left (tenseStep "non-finite" true) buckets (md, [])
    = (md ++ join "" (map nonFiniteTable buckets), []).
Proof.
  induction buckets as [|b buckets IH]; intros md.
  - simpl. now rewrite append_nil_r.
  - cbn [fold_left map]. rewrite tenseStep_nonFinite, IH, join_empty_cons.
    now rewrite append_assoc.
Qed.

Lemma finite_tenses_fold (mood : string)
  (buckets : list (string * NumbersObj)) :
  forall md,
    fold_left (tenseStep mood false) buckets (md, [])
    = (md ++ join "" (map (tenseTable mood) buckets), []).
Proof.
  induction buckets as [|b buckets IH]; intros md.
  - simpl. now rewrite append_nil_r.
  - cbn [fold_left map]. rewrite tenseStep_finite, IH, join_empty_cons.
    now rewrite append_assoc.
Qed.

(** X20. In the group of the non-finite forms only the buckets without a
    tense write rows: the loop over the buckets, entered with no row
    remembered, appends for each bucket without tense its distinct rows
    [| tags | word |], each at its first occurrence, and nothing at all
    for a bucket with a tense (a participle tagged with a tense is never
    written). *)
Theorem nonFinite_group_rows :
  forall (buckets : list (string * NumbersObj)) (md : string),
    fold_left (tenseStep "non-finite" true) buckets (md, [])
    = (md ++ join "" (map nonFiniteTable buckets), []).
Proof. intros. apply nonFinite_tenses_fold. Qed.

Lemma moodStep_section (md : string) (group : string * TensesObj) :
  moodStep (md, []) group = (md ++ moodSection group, []).
Proof.
  destruct group as [mood tensesObj]. unfold moodStep, moodSection.
  cbn [fst snd]. destruct (String.eqb_spec mood "non-finite") as [->|Hne].
  - rewrite nonFinite_tenses_fold. cbn [fst snd].
    now rewrite !append_assoc.
  - rewrite finite_tenses_fold. cbn [fst snd].
    now rewrite !append_assoc.
Qed.

Lemma moods_fold (groups : list (string * TensesObj)) :
  forall md,
    fold_left moodStep groups (md, [])
    = (md ++ join "" (map moodSection groups), []).
Proof.
  induction groups as [|g groups IH]; intros md.
  - simpl. now rewrite append_nil_r.
  - cbn [fold_left map]. rewrite moodStep_section, IH, join_empty_cons.
    now rewrite append_assoc.
Qed.

(** X21. In the complex branch the section of a non-empty array of forms
    is the heading followed by one independent block per mood group, in
    the order the grouped object enumerates them: the group heading, then
    for the non-finite group one table, and for a finite mood one table per
    tense bucket that is not skipped. *)
Theorem complex_branch_sections :
  forall (this : Dictionary.t) (forms : list Form.t),
    inArray (language this) complexConjugationsLanguages = true ->
    forms <> [] ->
    exists grouped,
      foldM groupForm forms JSObject.empty = Ok grouped
      /\ renderForms this forms
         = Ok ("### Forms" ++ nl
               ++ join "" (map moodSection (JSObject.entries grouped))
               ++ nl ++ nl).
Proof.
  intros this forms Hc Hne. unfold renderForms. rewrite Hc.
  destruct forms as [|f0 rest] eqn:E; [congruence|]. rewrite <- E.
  replace (isEmpty forms) with false by (now rewrite E).
  assert (H : exists grouped, foldM groupForm forms JSObject.empty = Ok grouped).
  { assert (Hall : forall l grouped,
               exists grouped', foldM groupForm l grouped = Ok grouped').
    { induction l as [|f l IH]; intros grouped; cbn [foldM]; [eauto|].
      destruct (groupForm_total grouped f) as [g' ->]. cbn [bind]. apply IH. }
    apply Hall. }
  destruct H as [grouped Hg]. exists grouped. split; [exact Hg|].
  rewrite Hg. cbn [bind]. rewrite moods_fold. cbn [fst].
  now rewrite !append_assoc.
Qed.

Lemma complex_branch_sections_witness :
  inArray (language es) complexConjugationsLanguages = true
  /\ exists grouped,
       foldM groupForm
         [Form.mk "hablando" ["gerund"];
          Form.mk "hablo" ["present"; "singular"; "first-person"]]
         JSObject.empty = Ok grouped
       /\ renderForms es
            [Form.mk "hablando" ["gerund"];
             Form.mk "hablo" ["present"; "singular"; "first-person"]]
          = Ok ("### Forms" ++ nl
                ++ join "" (map moodSection (JSObject.entries grouped))
                ++ nl ++ nl).
Proof.
  split; [reflexivity|].
  apply (complex_branch_sections es
           [Form.mk "hablando" ["gerund"];
            Form.mk "hablo" ["present"; "singular"; "first-person"]]);
    [reflexivity | discriminate].
Defined.

Lemma set_keys {V : Type} (k : string) (v : V) (o : JSObject.t V) :
  map fst (JSObject.set k v o)
  = if inArray k (map fst o) then map fst o else (map fst o ++ [k])%list.
Proof.
  induction o as [|[k' v'] o IH]; [reflexivity|].
  cbn [JSObject.set map fst]. rewrite inArray_cons.
  destruct (String.eqb_spec k k') as [->|Hne]; cbn [orb map fst].
  - reflexivity.
  - rewrite IH. destruct (inArray k (map fst o)); reflexivity.
Qed.

Lemma modify_keys {V : Type} (k : string) (init : V) (f : V -> Result V)
  (o o' : JSObject.t V) :
  JSObject.modify k init f o = Ok o' ->
  map fst o'
  = if inArray k (map fst o) then map fst o else (map fst o ++ [k])%list.
Proof.
  unfold JSObject.modify. destruct (JSObject.get k o) as [v| |].
  - destruct (f v) as [v'|]; cbn [bind]; [|discriminate].
    intros H. injection H as <-. apply set_keys.
  - discriminate.
  - destruct (f init) as [v'|]; cbn [bind]; [|discriminate].
    intros H. injection H as <-. apply set_keys.
Qed.

Lemma groupForm_kept (grouped : Grouped) (f : Form.t) :
  kept f = true ->
  groupForm grouped f
  = JSObject.modify (moodOf f) JSObject.empty
      (JSObject.modify (tenseOf f) JSObject.empty
         (JSObject.modify (numberOf f) JSObject.empty
            (JSObject.modify (personOf f) []
               (fun formsArr => Ok (formsArr ++ [f])%list))))
      grouped.
Proof.
  unfold kept, skipped, groupForm.
  destruct (isEmpty (Form.tags f)); [discriminate|].
  destruct (hasInvalidTag f); [discriminate|].
  destruct (wordMentions (Form.word f) tenses); [discriminate|].
  destruct (wordMentions (Form.word f) numbers); [discriminate|].
  destruct (wordMentions (Form.word f) persons); [discriminate|].
  reflexivity.
Qed.

Lemma grouped_keys (forms : list Form.t) :
  Forall (fun f => kept f = true) forms ->
  forall grouped grouped' : Grouped,
    foldM groupForm forms grouped = Ok grouped' ->
    map fst grouped'
    = (map fst grouped
       ++ dedupFrom (map fst grouped) (map moodOf forms))%list.
Proof.
  induction 1 as [|f forms Hf _ IH]; intros grouped grouped' H.
  - cbn [foldM] in H. injection H as <-. cbn [map dedupFrom].
    now rewrite app_nil_r.
  - cbn [foldM] in H.
    destruct (groupForm grouped f) as [g1|] eqn:E; [|discriminate].
    cbn [bind] in H. rewrite (IH _ _ H).
    rewrite (groupForm_kept _ _ Hf) in E. rewrite (modify_keys _ _ _ _ _ E).
    cbn [map dedupFrom].
    destruct (inArray (moodOf f) (map fst grouped)); [reflexivity|].
    now rewrite <- app_assoc.
Qed.

Lemma moodOf_not_index (f : Form.t) :
  JSObject.isArrayIndex (moodOf f) = false.
Proof.
  assert (H : forall k d,
             In k (d :: moods) ->
             forallb (fun k' => negb (JSObject.isArrayIndex k')) (d :: moods)
             = true ->
             JSObject.isArrayIndex k = false).
  { intros k d Hin Hall. rewrite forallb_forall in Hall.
    specialize (Hall k Hin). now destruct (JSObject.isArrayIndex k). }
  unfold moodOf.
  destruct (find (fun nm => inArray nm (Form.tags f)) nonfiniteMoods)
    as [nm|]; [destruct (truthy nm)|];
    (eapply H; [apply findOr_in | reflexivity]).
Qed.

(** X22. The mood groups of the complex branch are enumerated in the order
    their labels are first met among the forms the grouping keeps, each
    label once. *)
Theorem mood_groups_in_first_encounter_order :
  forall forms : list Form.t,
    exists grouped,
      foldM groupForm forms JSObject.empty = Ok grouped
      /\ map fst (JSObject.entries grouped)
         = distinctRows (map moodOf (filter kept forms)).
Proof.
  intros forms.
  assert (Hall : forall l grouped,
             exists grouped', foldM groupForm l grouped = Ok grouped').
  { induction l as [|f l IH]; intros grouped; cbn [foldM]; [eauto|].
    destruct (groupForm_total grouped f) as [g' ->]. cbn [bind]. apply IH. }
  destruct (Hall forms JSObject.empty) as [grouped Hg].
  exists grouped. split; [exact Hg|].
  rewrite foldM_groupForm_kept in Hg.
  assert (Hk : Forall (fun f => kept f = true) (filter kept forms)).
  { apply Forall_forall. intros f Hf. now apply filter_In in Hf. }
  pose proof (grouped_keys _ Hk _ _ Hg) as Hkeys. cbn [map app] in Hkeys.
  fold (distinctRows (map moodOf (filter kept forms))) in Hkeys.
  rewrite entries_creation_order; [exact Hkeys|].
  apply Forall_forall. intros kv Hkv.
  assert (Hin : In (fst kv) (map fst grouped)) by (now apply in_map).
  rewrite Hkeys in Hin. unfold distinctRows in Hin.
  apply (proj2 (dedupFrom_spec _ [])) in Hin. destruct Hin as [Hin _].
  apply in_map_iff in Hin. destruct Hin as [f [<- _]].
  apply moodOf_not_index.
Qed.

End ComplexSections.

(** ** More on the senses *)

Section SensesMore.
Import Dictionary.

(** Induction on a sense, with the property known of its subsenses. *)
Lemma Sense_induction (P : Sense.t -> Prop) :
  (forall d tg ex q sy an tr subs,
      Forall P subs -> P (Sense.mk d tg ex q sy an tr subs)) ->
  forall s, P s.
Proof.
  intros H. fix F 1. intros [d tg ex q sy an tr subs]. apply H.
  induction subs as [|x subs IH]; constructor; [apply F | exact IH].
Qed.

Lemma mapIdx_map {A B : Type} (g g' : A -> nat -> B) (h : A -> A)
  (l : list A) :
  Forall (fun x => forall i, g (h x) i = g' x i) l ->
  forall k, mapIdx g (map h l) k = mapIdx g' l k.
Proof.
  induction 1 as [|x l Hx _ IH]; intros k; [reflexivity|].
  cbn [map mapIdx]. now rewrite Hx, IH.
Qed.

Lemma isEmpty_map {A B : Type} (h : A -> B) (l : list A) :
  isEmpty (map h l) = isEmpty l.
Proof. destruct l; reflexivity. Qed.

Lemma renderSubsenses_clear (subsenses : list Sense.t) (indent : nat) :
  Forall (fun s => forall indent idx,
            subsenseItem indent (clearUnused s) idx = subsenseItem indent s idx)
    subsenses ->
  renderSubsenses (map clearUnused subsenses) indent
  = renderSubsenses subsenses indent.
Proof.
  intros H. rewrite !renderSubsenses_closed, isEmpty_map.
  rewrite (mapIdx_map (subsenseItem indent) (subsenseItem indent)
             clearUnused subsenses); [reflexivity|].
  eapply Forall_impl; [|exact H]. intros s Hs i. apply Hs.
Qed.

Lemma subsenseItem_clear (s : Sense.t) :
  forall indent idx,
    subsenseItem indent (clearUnused s) idx = subsenseItem indent s idx.
Proof.
  induction s as [d tg ex q sy an tr subs IH] using Sense_induction.
  intros indent idx. unfold subsenseItem, subsenseDetails.
  cbn [clearUnused Sense.definition Sense.synonyms Sense.antonyms
         Sense.examples Sense.quotes Sense.subsenses].
  now rewrite (renderSubsenses_clear subs (indent + 1) IH).
Qed.

Lemma senseItem_clear (t : Sense.t) (j : nat) :
  senseItem (clearUnused t) j = senseItem t j.
Proof.
  destruct t as [d tg ex q sy an tr subs]. unfold senseItem, senseDetails.
  cbn [clearUnused Sense.definition Sense.synonyms Sense.antonyms
         Sense.examples Sense.quotes Sense.subsenses].
  rewrite renderSubsenses_clear; [reflexivity|].
  apply Forall_forall. intros s _. apply subsenseItem_clear.
Qed.

(** X19. The tags and the translations of a sense are never written:
    emptying them at every depth of every sense leaves the rendered senses
    unchanged. *)
Theorem renderSenses_ignores_tags_and_translations :
  forall senses : list Sense.t,
    renderSenses (map clearUnused senses) = renderSenses senses.
Proof.
  intros senses. rewrite !renderSenses_closed, isEmpty_map.
  destruct (isEmpty senses); [reflexivity|].
  rewrite (mapIdx_map senseItem senseItem clearUnused senses);
    [reflexivity|].
  apply Forall_forall. intros t _ j. apply senseItem_clear.
Qed.

End SensesMore.

(** ** The favorites list *)

Section FavoritesListProperties.
Import FavoritesList.

Lemma groupWord_step (acc : JSObject.t (list string)) (fav : FavoriteEntry.t) :
  groupWord acc fav
  = groupStep (fun _ : FavoriteEntry.t => @nil string)
      (fun fav words => (words ++ [FavoriteEntry.word fav])%list)
      acc (FavoriteEntry.language fav, fav).
Proof. reflexivity. Qed.

Lemma fold_push_words (sharing : list FavoriteEntry.t) :
  forall words : list string,
    fold_left (fun words fav => (words ++ [FavoriteEntry.word fav])%list)
      sharing words
    = (words ++ map FavoriteEntry.word sharing)%list.
Proof.
  induction sharing as [|fav sharing IH]; intros words; cbn [fold_left map].
  - now rewrite app_nil_r.
  - now rewrite IH, <- app_assoc.
Qed.

(** X23. When no stored language is an array index or a name inherited
    from [Object.prototype], the list has one section per language, in the
    order the languages are first met in the store, and the section of a
    language holds the words of its favorites in stored order. *)
Theorem favorites_sections_by_language :
  forall favorites : list FavoriteEntry.t,
    Forall (fun fav => JSObject.ordinaryKey (FavoriteEntry.language fav) = true)
      favorites ->
    sections favorites
    = Ok (map (languageSection favorites)
            (firsts (map (fun fav => (FavoriteEntry.language fav, fav))
                       favorites))).
Proof.
  intros favorites H. unfold sections.
  set (items := map (fun fav => (FavoriteEntry.language fav, fav)) favorites).
  assert (Hitems : Forall (fun kx : string * FavoriteEntry.t =>
                             JSObject.ordinaryKey (fst kx) = true) items)
    by (apply Forall_map; exact H).
  assert (Hg : foldM groupWord favorites JSObject.empty
               = Ok (firstEncounter (fun _ : FavoriteEntry.t => @nil string)
                       (fun fav words =>
                          (words ++ [FavoriteEntry.word fav])%list) items)).
  { rewrite <- (grouping_first_encounter _ _ items Hitems).
    exact (foldM_map
             (groupStep (fun _ : FavoriteEntry.t => @nil string)
                (fun fav words => (words ++ [FavoriteEntry.word fav])%list))
             (fun fav => (FavoriteEntry.language fav, fav))
             favorites JSObject.empty). }
  rewrite Hg. cbn [bind].
  rewrite (firstEncounter_entries _ _ items Hitems).
  unfold firstEncounter. f_equal. apply map_ext. intros kx0.
  unfold groupOf, languageSection. fold items.
  now rewrite fold_push_words.
Qed.

Lemma favorites_sections_by_language_witness :
  sections
    [FavoriteEntry.mk "es" "hablar" "m" "u";
     FavoriteEntry.mk "en" "run" "m" "u";
     FavoriteEntry.mk "es" "ser" "m" "u"]
  = Ok [("es", ["hablar"; "ser"]); ("en", ["run"])].
Proof.
  rewrite (favorites_sections_by_language
             [FavoriteEntry.mk "es" "hablar" "m" "u";
              FavoriteEntry.mk "en" "run" "m" "u";
              FavoriteEntry.mk "es" "ser" "m" "u"]).
  - reflexivity.
  - repeat constructor.
Defined.

(** X24. Building the sections of the list throws exactly when the language
    of some stored favorite is a name inherited from [Object.prototype]
    (such as [constructor]). *)
Theorem favorites_sections_throw :
  forall favorites : list FavoriteEntry.t,
    sections favorites = TypeError
    <-> exists fav,
          In fav favorites
          /\ JSObject.inherited (FavoriteEntry.language fav) = true.
Proof.
  intros favorites. unfold sections.
  transitivity
    (foldM (groupStep (fun _ : FavoriteEntry.t => @nil string)
              (fun fav words => (words ++ [FavoriteEntry.word fav])%list))
       (map (fun fav => (FavoriteEntry.language fav, fav)) favorites)
       JSObject.empty = TypeError).
  - rewrite <- (foldM_map
                  (groupStep (fun _ : FavoriteEntry.t => @nil string)
                     (fun fav words =>
                        (words ++ [FavoriteEntry.word fav])%list))
                  (fun fav => (FavoriteEntry.language fav, fav))).
    change (fun (a : JSObject.t (list string)) (x : FavoriteEntry.t) =>
              groupStep (fun _ : FavoriteEntry.t => @nil string)
                (fun fav words => (words ++ [FavoriteEntry.word fav])%list)
                a (FavoriteEntry.language x, x))
      with groupWord.
    destruct (foldM groupWord favorites JSObject.empty); cbn [bind];
      split; congruence.
  - rewrite grouping_throws by constructor. rewrite Exists_exists. split.
    + intros [kx [Hin Hk]]. apply in_map_iff in Hin.
      destruct Hin as [fav [<- Hfav]]. now exists fav.
    + intros [fav [Hfav Hk]]. exists (FavoriteEntry.language fav, fav).
      split; [|exact Hk].
      exact (in_map (fun fav => (FavoriteEntry.language fav, fav)) _ _ Hfav).
Qed.

End FavoritesListProperties.

(** ** The rows of the pronunciation table *)

Section PronunciationRows.
Import Dictionary.




End PronunciationRows.

(** * The complex branch as a function of the forms *)

Section FormsRefinement.
Import Dictionary.

Lemma inArray_app (x : string) (l1 l2 : list string) :
  inArray x (l1 ++ l2)%list = inArray x l1 || inArray x l2.
Proof. unfold inArray. apply existsb_app. Qed.

Lemma dedupFrom_seen (rows : list string) :
  forall seen seen',
    (forall x, inArray x seen = inArray x seen') ->
    dedupFrom seen rows = dedupFrom seen' rows.
Proof.
  induction rows as [|row rows IH]; intros seen seen' H; [reflexivity|].
  cbn [dedupFrom]. rewrite (H row). destruct (inArray row seen').
  - now apply IH.
  - f_equal. apply IH. intros x. now rewrite !inArray_app, H.
Qed.

Lemma firstsFrom_fst {X : Type} (items : list (string * X)) :
  forall seen,
    map fst (firstsFrom seen items) = dedupFrom seen (map fst items).
Proof.
  induction items as [|[k x] items IH]; intros seen; [reflexivity|].
  cbn [firstsFrom map fst dedupFrom]. destruct (inArray k seen).
  - apply IH.
  - cbn [map fst]. f_equal. rewrite IH. apply dedupFrom_seen.
    intros y. rewrite inArray_cons, inArray_app.
    cbn [inArray existsb]. rewrite orb_false_r. apply orb_comm.
Qed.

Lemma members_keyed {A : Type} (key : A -> string) (l : list A) (k : string) :
  members k (map (fun x => (key x, x)) l)
  = filter (fun x => String.eqb (key x) k) l.
Proof.
  unfold members. induction l as [|x l IH]; [reflexivity|].
  cbn [map filter fst]. destruct (String.eqb (key x) k); cbn [map snd];
    now rewrite IH.
Qed.

Lemma firstEncounter_objectOf {A V : Type} (key : A -> string) (i0 : V)
  (add : A -> V -> V) (l : list A) :
  firstEncounter (fun _ => i0) add (map (fun x => (key x, x)) l)
  = objectOf key (fun g => fold_left (fun v x => add x v) g i0) l.
Proof.
  unfold firstEncounter, objectOf, groupedBy, distinctRows, firsts.
  assert (Hk : dedupFrom [] (map key l)
               = map fst (firstsFrom [] (map (fun x => (key x, x)) l))).
  { rewrite firstsFrom_fst, map_map. reflexivity. }
  rewrite Hk, !map_map. apply map_ext. intros kx0.
  unfold groupOf. cbn [fst snd]. now rewrite members_keyed.
Qed.

Lemma fold_upsert {A V : Type} (key : A -> string) (i0 : V)
  (add : A -> V -> V) (l : list A) :
  fold_left (fun o x => upsert (fun _ => i0) add (key x) x o) l []
  = firstEncounter (fun _ => i0) add (map (fun x => (key x, x)) l).
Proof.
  induction l as [|x l IH] using rev_ind; [reflexivity|].
  rewrite fold_left_app, map_app. cbn [fold_left map]. rewrite IH.
  apply firstEncounter_snoc.
Qed.

Lemma objectOf_ext {A V : Type} (key : A -> string) (val val' : list A -> V)
  (l : list A) :
  (forall g, val g = val' g) -> objectOf key val l = objectOf key val' l.
Proof.
  intros H. unfold objectOf. apply map_ext. intros kg. now rewrite H.
Qed.

Lemma fold_objectOf {A V : Type} (key : A -> string) (i0 : V)
  (add : A -> V -> V) (val : list A -> V) (l : list A) :
  (forall g, fold_left (fun v x => add x v) g i0 = val g) ->
  fold_left (fun o x => upsert (fun _ => i0) add (key x) x o) l []
  = objectOf key val l.
Proof.
  intros H. rewrite fold_upsert, firstEncounter_objectOf.
  now apply objectOf_ext.
Qed.

Lemma fold_pushForm (g : list Form.t) :
  forall formsArr,
    fold_left (fun v x => pushForm x v) g formsArr = (formsArr ++ g)%list.
Proof.
  induction g as [|f g IH]; intros formsArr; cbn [fold_left].
  - now rewrite app_nil_r.
  - rewrite IH. unfold pushForm. now rewrite <- app_assoc.
Qed.

Lemma personsOf_fold (fs : list Form.t) :
  fold_left (fun o f => addPerson f o) fs JSObject.empty = personsOf fs.
Proof.
  unfold addPerson, personsOf. apply fold_objectOf.
  intros g. apply fold_pushForm.
Qed.

Lemma numbersOf_fold (fs : list Form.t) :
  fold_left (fun o f => addNumber f o) fs JSObject.empty = numbersOf fs.
Proof.
  unfold addNumber, numbersOf. apply fold_objectOf. apply personsOf_fold.
Qed.

Lemma tensesOf_fold (fs : list Form.t) :
  fold_left (fun o f => addTense f o) fs JSObject.empty = tensesOf fs.
Proof.
  unfold addTense, tensesOf. apply fold_objectOf. apply numbersOf_fold.
Qed.

Lemma modify_ext {V : Type} (k : string) (init : V) (F G : V -> Result V)
  (o : JSObject.t V) :
  (forall v, F v = G v) ->
  JSObject.modify k init F o = JSObject.modify k init G o.
Proof.
  intros H. unfold JSObject.modify.
  destruct (JSObject.get k o); now rewrite ?H.
Qed.

Lemma findOr_not_inherited (p : string -> bool) (vocabulary : list string)
  (d : string) :
  forallb (fun k => negb (JSObject.inherited k)) (d :: vocabulary) = true ->
  JSObject.inherited (findOr p vocabulary d) = false.
Proof.
  intros H. eapply vocabulary_not_inherited; [apply findOr_in | exact H].
Qed.

Lemma moodOf_not_inherited (f : Form.t) :
  JSObject.inherited (moodOf f) = false.
Proof.
  unfold moodOf.
  destruct (find (fun nm => inArray nm (Form.tags f)) nonfiniteMoods)
    as [nm|]; [destruct (truthy nm)|];
    (apply findOr_not_inherited; reflexivity).
Qed.

(** For a form it keeps, the callback of the grouping loop adds the form
    at its place in the four levels. *)
Lemma groupForm_upsert (grouped : Grouped) (f : Form.t) :
  kept f = true ->
  groupForm grouped f
  = Ok (upsert (fun _ : Form.t => (JSObject.empty : TensesObj)) addTense
          (moodOf f) f grouped).
Proof.
  intros Hk. rewrite (groupForm_kept _ _ Hk).
  assert (H4 : forall personsObj : PersonsObj,
             JSObject.modify (personOf f) []
               (fun formsArr => Ok (formsArr ++ [f])%list) personsObj
             = Ok (addPerson f personsObj)).
  { intros personsObj.
    apply (groupStep_not_inherited (fun _ : Form.t => @nil Form.t) pushForm
             personsObj (personOf f) f).
    apply findOr_not_inherited. reflexivity. }
  assert (H3 : forall numbersObj : NumbersObj,
             JSObject.modify (numberOf f) JSObject.empty
               (JSObject.modify (personOf f) []
                  (fun formsArr => Ok (formsArr ++ [f])%list)) numbersObj
             = Ok (addNumber f numbersObj)).
  { intros numbersObj.
    rewrite (modify_ext _ _ _ (fun v => Ok (addPerson f v)) _ H4).
    apply (groupStep_not_inherited
             (fun _ : Form.t => (JSObject.empty : PersonsObj)) addPerson
             numbersObj (numberOf f) f).
    apply findOr_not_inherited. reflexivity. }
  assert (H2 : forall tensesObj : TensesObj,
             JSObject.modify (tenseOf f) JSObject.empty
               (JSObject.modify (numberOf f) JSObject.empty
                  (JSObject.modify (personOf f) []
                     (fun formsArr => Ok (formsArr ++ [f])%list))) tensesObj
             = Ok (addTense f tensesObj)).
  { intros tensesObj.
    rewrite (modify_ext _ _ _ (fun v => Ok (addNumber f v)) _ H3).
    apply (groupStep_not_inherited
             (fun _ : Form.t => (JSObject.empty : NumbersObj)) addNumber
             tensesObj (tenseOf f) f).
    apply findOr_not_inherited. reflexivity. }
  rewrite (modify_ext _ _ _ (fun v => Ok (addTense f v)) _ H2).
  apply (groupStep_not_inherited
           (fun _ : Form.t => (JSObject.empty : TensesObj)) addTense
           grouped (moodOf f) f).
  apply moodOf_not_inherited.
Qed.

Lemma foldM_groupForm_upsert (forms : list Form.t) :
  Forall (fun f => kept f = true) forms ->
  forall grouped,
    foldM groupForm forms grouped
    = Ok (fold_left
            (fun o f =>
               upsert (fun _ : Form.t => (JSObject.empty : TensesObj)) addTense
                 (moodOf f) f o) forms grouped).
Proof.
  induction 1 as [|f forms Hf _ IH]; intros grouped; [reflexivity|].
  cbn [foldM fold_left]. rewrite (groupForm_upsert _ _ Hf). cbn [bind].
  apply IH.
Qed.

(** The grouping loop builds the four-level object of the forms it keeps,
    with the keys of every level in the order they are first met. *)
Lemma grouping_of_forms (forms : list Form.t) :
  foldM groupForm forms JSObject.empty = Ok (groupedOf forms).
Proof.
  rewrite foldM_groupForm_kept, foldM_groupForm_upsert.
  - f_equal. unfold groupedOf. apply fold_objectOf. apply tensesOf_fold.
  - apply Forall_forall. intros f Hf. now apply filter_In in Hf.
Qed.

Lemma groupedBy_In {A : Type} (key : A -> string) (l : list A)
  (k : string) (g : list A) :
  In (k, g) (groupedBy key l)
  <-> In k (map key l) /\ g = filter (fun x => String.eqb (key x) k) l.
Proof.
  unfold groupedBy, distinctRows. rewrite in_map_iff. split.
  - intros [k' [Heq Hk]]. inversion Heq; subst k' g.
    apply (proj2 (dedupFrom_spec _ [])) in Hk. tauto.
  - intros [Hk ->]. exists k. split; [reflexivity|].
    apply (proj2 (dedupFrom_spec _ [])). simpl. tauto.
Qed.

Lemma entries_objectOf {A V : Type} (key : A -> string) (val : list A -> V)
  (l : list A) :
  (forall x, JSObject.isArrayIndex (key x) = false) ->
  JSObject.entries (objectOf key val l) = objectOf key val l.
Proof.
  intros H. apply entries_creation_order. unfold objectOf.
  apply Forall_forall. intros kv Hkv. apply in_map_iff in Hkv.
  destruct Hkv as [[k g] [<- Hkg]]. cbn [fst].
  apply groupedBy_In in Hkg. destruct Hkg as [Hk _].
  apply in_map_iff in Hk. destruct Hk as [x [<- _]]. apply H.
Qed.

Lemma findOr_not_index (p : string -> bool) (vocabulary : list string)
  (d : string) :
  forallb (fun k => negb (JSObject.isArrayIndex k)) (d :: vocabulary) = true ->
  JSObject.isArrayIndex (findOr p vocabulary d) = false.
Proof.
  intros H. rewrite forallb_forall in H.
  specialize (H _ (findOr_in p vocabulary d)).
  now destruct (JSObject.isArrayIndex (findOr p vocabulary d)).
Qed.

Lemma tenseOf_not_index (f : Form.t) :
  JSObject.isArrayIndex (tenseOf f) = false.
Proof. apply findOr_not_index. reflexivity. Qed.

Lemma numberOf_not_index (f : Form.t) :
  JSObject.isArrayIndex (numberOf f) = false.
Proof. apply findOr_not_index. reflexivity. Qed.

Lemma personOf_not_index (f : Form.t) :
  JSObject.isArrayIndex (personOf f) = false.
Proof. apply findOr_not_index. reflexivity. Qed.

Lemma flat_map_map {A B C : Type} (f : B -> list C) (g : A -> B)
  (l : list A) :
  flat_map f (map g l) = flat_map (fun x => f (g x)) l.
Proof.
  induction l as [|x l IH]; [reflexivity|].
  cbn [map flat_map]. now rewrite IH.
Qed.

Lemma rows_of_numbersOf (row : string -> string -> Form.t -> string)
  (fs : list Form.t) :
  flat_map (fun np : string * PersonsObj =>
    flat_map (fun pf : string * list Form.t =>
      map (row (fst pf) (fst np)) (snd pf))
      (JSObject.entries (snd np)))
    (JSObject.entries (numbersOf fs))
  = flat_map (fun ng : string * list Form.t =>
      flat_map (fun pg : string * list Form.t =>
        map (row (fst pg) (fst ng)) (snd pg))
        (groupedBy personOf (snd ng)))
      (groupedBy numberOf fs).
Proof.
  unfold numbersOf.
  rewrite (entries_objectOf numberOf personsOf fs numberOf_not_index).
  unfold objectOf at 1. rewrite flat_map_map.
  apply flat_map_ext. intros [number ns]. cbn [fst snd].
  unfold personsOf.
  rewrite (entries_objectOf personOf (fun formsArr => formsArr) ns
             personOf_not_index).
  unfold objectOf. rewrite flat_map_map. reflexivity.
Qed.

Lemma bucketRows_numbersOf (fs : list Form.t) :
  bucketRows (numbersOf fs) = finiteRowsOf fs.
Proof. apply (rows_of_numbersOf (fun person number => finiteRow person number)). Qed.

Lemma nonFiniteBucketRows_numbersOf (fs : list Form.t) :
  nonFiniteBucketRows (numbersOf fs) = nonFiniteRowsOf fs.
Proof. apply (rows_of_numbersOf (fun _ _ => nonFiniteRow)). Qed.

Lemma moodSection_tensesOf (mood : string) (fs : list Form.t) :
  moodSection (mood, tensesOf fs) = moodBlock (mood, fs).
Proof.
  unfold moodSection, moodBlock. cbn [fst snd]. unfold tensesOf.
  rewrite (entries_objectOf tenseOf numbersOf fs tenseOf_not_index).
  unfold objectOf. rewrite !map_map.
  assert (Hn : forall tg : string * list Form.t,
             nonFiniteTable (fst tg, numbersOf (snd tg))
             = nonFiniteTenseTable tg).
  { intros [tense ts]. unfold nonFiniteTable, nonFiniteTenseTable.
    cbn [fst snd]. now rewrite nonFiniteBucketRows_numbersOf. }
  assert (Hf : forall tg : string * list Form.t,
             tenseTable mood (fst tg, numbersOf (snd tg))
             = finiteTenseTable mood tg).
  { intros [tense ts]. unfold tenseTable, finiteTenseTable.
    cbn [fst snd]. now rewrite bucketRows_numbersOf. }
  now rewrite (map_ext _ _ Hn), (map_ext _ _ Hf).
Qed.

Lemma sections_of_forms (forms : list Form.t) :
  map moodSection (JSObject.entries (groupedOf forms))
  = map moodBlock (groupedBy moodOf (filter kept forms)).
Proof.
  unfold groupedOf.
  rewrite (entries_objectOf moodOf tensesOf _ moodOf_not_index).
  unfold objectOf. rewrite map_map. apply map_ext. intros [mood fs].
  apply moodSection_tensesOf.
Qed.

Lemma renderForms_complexSection (this : Dictionary.t) (forms : list Form.t) :
  inArray (language this) complexConjugationsLanguages = true ->
  forms <> [] ->
  renderForms this forms = Ok (complexSection forms).
Proof.
  intros Hc Hne. unfold renderForms. rewrite Hc.
  destruct forms as [|f0 rest] eqn:E; [congruence|]. rewrite <- E.
  replace (isEmpty forms) with false by (now rewrite E).
  rewrite grouping_of_forms. cbn [bind]. rewrite moods_fold. cbn [fst].
  rewrite sections_of_forms. unfold complexSection.
  now rewrite !append_assoc.
Qed.

Lemma finiteRowsOf_In (fs : list Form.t) (row : string) :
  In row (finiteRowsOf fs)
  <-> exists f, In f fs /\ row = finiteRow (personOf f) (numberOf f) f.
Proof.
  unfold finiteRowsOf. rewrite in_flat_map. split.
  - intros [[number ns] [Hn Hrow]]. cbn [fst snd] in Hrow.
    apply groupedBy_In in Hn. destruct Hn as [_ ->].
    apply in_flat_map in Hrow. destruct Hrow as [[person ps] [Hp Hrow]].
    cbn [fst snd] in Hrow. apply groupedBy_In in Hp. destruct Hp as [_ ->].
    apply in_map_iff in Hrow. destruct Hrow as [f [<- Hf]].
    apply filter_In in Hf. destruct Hf as [Hf Hpf].
    apply filter_In in Hf. destruct Hf as [Hf Hnf].
    apply String.eqb_eq in Hpf, Hnf. subst person number. now exists f.
  - intros [f [Hf ->]].
    exists (numberOf f,
            filter (fun x => String.eqb (numberOf x) (numberOf f)) fs).
    split.
    + apply groupedBy_In. split; [now apply in_map | reflexivity].
    + cbn [fst snd]. apply in_flat_map.
      assert (Hfn : In f (filter (fun x => String.eqb (numberOf x) (numberOf f))
                            fs))
        by (apply filter_In; split; [exact Hf | apply String.eqb_refl]).
      exists (personOf f,
              filter (fun x => String.eqb (personOf x) (personOf f))
                (filter (fun x => String.eqb (numberOf x) (numberOf f)) fs)).
      split.
      * apply groupedBy_In. split; [now apply in_map | reflexivity].
      * cbn [fst snd]. apply in_map. apply filter_In.
        split; [exact Hfn | apply String.eqb_refl].
Qed.

Lemma moodSteps_reset (groups : list (string * TensesObj)) (md : string) :
  snd (fold_left moodStep groups (md, [])) = [].
Proof.
  assert (H : forall st : RenderState,
             snd st = [] -> snd (fold_left moodStep groups st) = []).
  { induction groups as [|g groups IH]; intros st Hst; [assumption|].
    cbn [fold_left]. apply IH. now apply moodStep_resets. }
  now apply H.
Qed.

(** C6. Duplicate rows are suppressed per tense bucket, not globally.  For
    a complex-branch language the Forms section of a non-empty array is the
    heading followed, for each mood of the forms the grouping keeps (in the
    order the moods are first met), by the block of that mood; the block of
    a finite mood holds, for each tense of its forms (in the order first
    met) that is not skipped, the sub-heading, the table header and the
    distinct rows of the forms of that mood and tense alone, each row at
    its first occurrence.  The rows of a bucket are exactly the rows
    [| person number | word |] of its forms, and keeping the distinct ones
    writes each of them once.  So a row repeated within a bucket is written
    once, and a row that comes again in another bucket is written again.
    In the loops this is because the array of rows is empty on entry to
    every bucket and every mood group. *)
Theorem duplicate_rows_suppressed_per_tense_bucket :
  (forall (this : Dictionary.t) (forms : list Form.t),
      inArray (language this) complexConjugationsLanguages = true ->
      forms <> [] ->
      renderForms this forms = Ok (complexSection forms))
  /\ (forall (fs : list Form.t) (row : string),
        In row (finiteRowsOf fs)
        <-> exists f, In f fs /\ row = finiteRow (personOf f) (numberOf f) f)
  /\ (forall (key : Form.t -> string) (forms : list Form.t) (k : string)
        (fs : list Form.t),
        In (k, fs) (groupedBy key forms)
        <-> In k (map key forms)
            /\ fs = filter (fun f => String.eqb (key f) k) forms)
  /\ (forall rows : list string,
        NoDup (distinctRows rows)
        /\ (forall row, In row (distinctRows rows) <-> In row rows))
  /\ (forall (mood : string) (buckets : list (string * NumbersObj))
        (md : string),
        fold_left (tenseStep mood false) buckets (md, [])
        = (md ++ join "" (map (tenseTable mood) buckets), []))
  /\ (forall (groups : list (string * TensesObj)) (md : string),
        snd (fold_left moodStep groups (md, [])) = []).
Proof.
  split; [|split; [|split; [|split; [|split]]]].
  - intros this forms Hc Hne. now apply renderForms_complexSection.
  - intros fs row. apply finiteRowsOf_In.
  - intros key forms k fs. apply groupedBy_In.
  - intros rows. unfold distinctRows.
    destruct (dedupFrom_spec rows []) as [Hnd Hin]. split; [assumption|].
    intros row. rewrite (Hin row). simpl. tauto.
  - intros mood buckets md. apply finite_tenses_fold.
  - intros groups md. apply moodSteps_reset.
Qed.

Lemma duplicate_rows_suppressed_per_tense_bucket_witness :
  inArray (language es) complexConjugationsLanguages = true
  /\ habloForms <> []
  /\ complexSection habloForms
     = "### Forms" ++ nl
       ++ "#### Mood: indicative" ++ nl
       ++ "##### Tense: present" ++ nl
       ++ "| Person & Number | Form |" ++ nl
       ++ "|---|---|" ++ nl
       ++ "| first-person singular | hablo |" ++ nl
       ++ "##### Tense: present" ++ nl
       ++ "| Person & Number | Form |" ++ nl
       ++ "|---|---|" ++ nl
       ++ "| first-person singular | hablo |" ++ nl
       ++ nl ++ nl ++ nl
  /\ renderForms es habloForms = Ok (complexSection habloForms).
Proof.
  assert (Hc : inArray (language es) complexConjugationsLanguages = true)
    by reflexivity.
  assert (Hne : habloForms <> []) by discriminate.
  split; [exact Hc|]. split; [exact Hne|].
  split; [vm_compute; reflexivity|].
  exact (proj1 duplicate_rows_suppressed_per_tense_bucket es habloForms
           Hc Hne).
Defined.

End FormsRefinement.
